(** * NumberRobotSnake: the decision core of src/robots/number.py

    A shallow embedding of the robot in [src/robots/number.py] and the
    properties its specification states about it.

    Conventions of the embedding.
    - Python integers are [Z].
    - Python floats occur only as [points / self.length], [bonus / distance]
      and the literal [1.0]; they are modelled by the exact rationals [Q] and
      compared with [Qeq_bool] and [Qle_bool].  The quotients involved have
      numerators and denominators far below 2^26, where float division keeps
      distinct quotients distinct and in order, so the comparisons agree.
    - A raised exception is the [Raise] case of [Result].
    - [random] is a stream of draws, [Rng], threaded through the calls that
      consume it.
    - A generator is a state together with the function that runs it up to
      its next [yield]; a loop that may run long takes a fuel argument and
      is shown to return for a stated amount of fuel. *)

From Stdlib Require Import ZArith QArith List Lia.
From stdpp Require Import base gmap sets list.

#[local] Open Scope Z_scope.
#[local] Set Warnings "-clear-no-such-hyp".

(** ** Data types *)

(** Modelled from the spec: [snakepit.datatypes.Position], an immutable
    integer (x, y) pair with equality and hash by value. *)
Module Position.
Record t : Type := mk { x : Z; y : Z }.

#[global] Instance eq_dec : EqDecision t.
Proof. solve_decision. Defined.

#[global] Instance countable : Countable t :=
  inj_countable' (fun p => (x p, y p)) (fun q => mk q.1 q.2)
    (fun p => match p with mk _ _ => eq_refl end).
End Position.
Abbreviation Position := Position.t.

(** Modelled from the spec: [snakepit.datatypes.Vector], an integer
    (xdir, ydir) offset. *)
Module Vector.
Record t : Type := mk { xdir : Z; ydir : Z }.

#[global] Instance eq_dec : EqDecision t.
Proof. solve_decision. Defined.
End Vector.
Abbreviation Vector := Vector.t.

(** Modelled from the spec: the four directions of [RobotSnake], unit
    offsets on exactly one axis; "up" decreases y (the scenario of the
    spec goes from (5,5) up to (5,2)). *)
Definition UP : Vector := Vector.mk 0 (-1).
Definition DOWN : Vector := Vector.mk 0 1.
Definition LEFT : Vector := Vector.mk (-1) 0.
Definition RIGHT : Vector := Vector.mk 1 0.
Definition DIRECTIONS : list Vector := [UP; DOWN; LEFT; RIGHT].

(** Modelled from the spec: the symbols a world cell can carry (empty,
    stone, head, body, tail, dead-body, '0'-'9'). *)
Inductive Digit : Type := D0 | D1 | D2 | D3 | D4 | D5 | D6 | D7 | D8 | D9.

Inductive Char : Type :=
| CH_VOID
| CH_STONE
| CH_HEAD
| CH_BODY
| CH_TAIL
| CH_DEAD_BODY
| CH_DIGIT (d : Digit).

#[global] Instance Digit_eq_dec : EqDecision Digit.
Proof. solve_decision. Defined.

#[global] Instance Char_eq_dec : EqDecision Char.
Proof. solve_decision. Defined.

(** [int(char)] on a digit character. *)
Definition int (d : Digit) : Z :=
  match d with
  | D0 => 0 | D1 => 1 | D2 => 2 | D3 => 3 | D4 => 4
  | D5 => 5 | D6 => 6 | D7 => 7 | D8 => 8 | D9 => 9
  end.

Definition BODY_CHARS : list Char := [CH_HEAD; CH_BODY; CH_TAIL].
Definition DEAD_BODY_CHARS : list Char := [CH_DEAD_BODY].

(** Modelled from the spec: the world collaborator, a grid of width
    [SIZE_X] and height [SIZE_Y] with a cell lookup [world[y][x]] giving a
    (symbol, owner) pair.  The robot reads cells only inside the grid. *)
Module World.
Record t : Type := mk { SIZE_X : Z; SIZE_Y : Z; cell : Z -> Z -> Char * Z }.
End World.
Abbreviation World := World.t.

(** The attributes of [self] set in [__init__]. *)
Module Self.
Record t : Type := mk {
  world : World;
  color : Z;
  length : Z;
  head : Position;
  tail : Position;
  body : list Position;
  plan : list Position;
  plan_directions : list Vector
}.

Definition set_plan (self : t) (p : list Position) (d : list Vector) : t :=
  mk (world self) (color self) (length self) (head self) (tail self)
     (body self) p d.

Definition set_head (self : t) (p : Position) : t :=
  mk (world self) (color self) (length self) p (tail self)
     (body self) (plan self) (plan_directions self).

Definition set_tail (self : t) (p : Position) : t :=
  mk (world self) (color self) (length self) (head self) p
     (body self) (plan self) (plan_directions self).

Definition set_body (self : t) (b : list Position) (n : Z) : t :=
  mk (world self) (color self) n (head self) (tail self)
     b (plan self) (plan_directions self).

Definition set_length (self : t) (n : Z) : t :=
  mk (world self) (color self) n (head self) (tail self)
     (body self) (plan self) (plan_directions self).
End Self.

(** [self.BLOCKS = {self.CH_STONE} | self.BODY_CHARS | self.DEAD_BODY_CHARS] *)
Definition BLOCKS : list Char := CH_STONE :: BODY_CHARS ++ DEAD_BODY_CHARS.

(** ** Exceptions

    [OutOfFuel] is not a Python exception: it stands for a loop of the
    model that used up its fuel, and is shown never to come out of
    [free_room] or [get_to]. *)

Inductive exn : Type :=
| CannotContinue
| ZeroDivisionError
| ValueError
| OutOfFuel.

Inductive Result (A : Type) : Type :=
| Ok (a : A)
| Raise (e : exn).
Arguments Ok {A} a.
Arguments Raise {A} e.

(** [Result] is a monad: [x ← m; k] runs [k] on the value of [m] and
    passes an exception of [m] on. *)
#[global] Instance Result_ret : MRet Result := fun A a => Ok a.

#[global] Instance Result_bind : MBind Result := fun A B k m =>
  match m with
  | Ok a => k a
  | Raise e => Raise e
  end.

(** Python's [a / b] on integers. *)
Definition truediv (a b : Z) : Result Q :=
  if b =? 0 then Raise ZeroDivisionError else Ok (inject_Z a / inject_Z b)%Q.

(** ** The random source

    The draws that [random] will make, in order; once the list is used up
    every further draw is 0.  Any finite run is the run on some such
    list. *)

Definition Rng : Type := list nat.

Definition draw (g : Rng) : nat * Rng :=
  match g with
  | [] => (0%nat, [])
  | n :: g' => (n, g')
  end.

(** [random._randbelow(n)] *)
Definition randbelow (n : nat) (g : Rng) : nat * Rng :=
  let (k, g') := draw g in (k mod n, g')%nat.

(** [random.choice(seq)] is [seq[randbelow(len(seq))]]. *)
Definition random_choice {A : Type} (seq : list A) (g : Rng) : option A * Rng :=
  let (i, g') := randbelow (List.length seq) g in (seq !! i, g').

Definition swap {A : Type} (l : list A) (i j : nat) : list A :=
  match l !! i, l !! j with
  | Some a, Some b => <[i := b]> (<[j := a]> l)
  | _, _ => l
  end.

(** [random.shuffle(x)]:
    [for i in reversed(range(1, len(x))): j = randbelow(i + 1); x[i], x[j] = x[j], x[i]] *)
Fixpoint shuffle_loop {A : Type} (i : nat) (l : list A) (g : Rng) : list A * Rng :=
  match i with
  | O => (l, g)
  | S i' =>
      let (j, g') := randbelow (S i) g in
      shuffle_loop i' (swap l i j) g'
  end.

Definition random_shuffle {A : Type} (l : list A) (g : Rng) : list A * Rng :=
  shuffle_loop (List.length l - 1)%nat l g.

(** ** Grid Oracle: [is_block] *)

Definition is_block (self : Self.t) (point : Position) : bool :=
  let w := Self.world self in
  if (Position.x point <? 0) || (Position.x point >=? World.SIZE_X w)
     || (Position.y point <? 0) || (Position.y point >=? World.SIZE_Y w)
  then true
  else
    let '(char, color) := World.cell w (Position.y point) (Position.x point) in
    bool_decide (char ∈ BLOCKS).

(** [Position(p.x + direction.xdir, p.y + direction.ydir)] *)
Definition move (p : Position) (direction : Vector) : Position :=
  Position.mk (Position.x p + Vector.xdir direction)
              (Position.y p + Vector.ydir direction).

(** ** Reachability Estimator: [flood_fill] and [free_room] *)

(** The state of the generator [flood_fill].  [points_to_check] is the
    Python list read from its end: [pop()] takes the first element here and
    [append] puts one in front. *)
Record FloodState : Type := {
  points_to_check : list Position;
  done : gset Position
}.

(** [points_to_check = [point]; done = set()] *)
Definition flood_init (point : Position) : FloodState :=
  {| points_to_check := [point]; done := ∅ |}.

(** The [for direction in self.DIRECTIONS] loop after the [yield]. *)
Definition add_neighborhood (cp : Position) (done : gset Position)
    (points_to_check : list Position) : list Position :=
  fold_left
    (fun stack direction =>
       let next_point := move cp direction in
       if bool_decide (next_point ∈ done) then stack else next_point :: stack)
    DIRECTIONS points_to_check.

(** One iteration of [while points_to_check]: [None] when the loop (and the
    generator) ends, otherwise the point yielded in this iteration, if any,
    and the state after it. *)
Definition flood_step (self : Self.t) (st : FloodState)
    : option (option Position * FloodState) :=
  match points_to_check st with
  | [] => None
  | cp :: rest =>
      if bool_decide (cp ∈ done st) then
        Some (None, {| points_to_check := rest; done := done st ∪ {[cp]} |})
      else if is_block self cp then
        Some (None, {| points_to_check := rest; done := done st |})
      else
        Some (Some cp,
              {| points_to_check := add_neighborhood cp (done st) rest;
                 done := done st ∪ {[cp]} |})
  end.

(** The generator run to exhaustion: the list of all points it yields. *)
Fixpoint flood_fill_from (fuel : nat) (self : Self.t) (st : FloodState)
    : option (list Position) :=
  match fuel with
  | O => None
  | S fuel' =>
      match flood_step self st with
      | None => Some []
      | Some (None, st') => flood_fill_from fuel' self st'
      | Some (Some cp, st') => cons cp <$> flood_fill_from fuel' self st'
      end
  end.

(** The loop of [free_room] over the generator, with its early return. *)
Fixpoint free_room_loop (fuel : nat) (self : Self.t) (st : FloodState)
    (points : Z) : option (Result Q) :=
  match fuel with
  | O => None
  | S fuel' =>
      match flood_step self st with
      | None => Some (truediv points (Self.length self))
      | Some (None, st') => free_room_loop fuel' self st' points
      | Some (Some _, st') =>
          let points := points + 1 in
          if points >=? Self.length self then Some (Ok 1%Q)
          else free_room_loop fuel' self st' points
      end
  end.

(** Iterations that always suffice for a flood fill of the world, see
    [flood_fill_from_enough]. *)
Definition flood_fuel (w : World) : nat :=
  S (S (4 * (Z.to_nat (World.SIZE_X w) * Z.to_nat (World.SIZE_Y w)))).

Definition flood_fill (self : Self.t) (point : Position) : list Position :=
  default [] (flood_fill_from (flood_fuel (Self.world self)) self (flood_init point)).

Definition free_room (self : Self.t) (point : Position) : Result Q :=
  default (Raise OutOfFuel)
    (free_room_loop (flood_fuel (Self.world self)) self (flood_init point) 0).

(** ** Agent State Tracker: [get_position] *)

(** The cells in the order of
    [for y in range(SIZE_Y): for x in range(SIZE_X)]. *)
Definition grid_positions (w : World) : list Position :=
  y ← seqZ 0 (World.SIZE_Y w);
  x ← seqZ 0 (World.SIZE_X w);
  [Position.mk x y].

(** The body of the two loops of [get_position] at one cell. *)
Definition get_position_cell (self : Self.t) (point : Position) : Self.t :=
  let '(char, color) :=
    World.cell (Self.world self) (Position.y point) (Position.x point) in
  if bool_decide (color = Self.color self) then
    let self :=
      if bool_decide (char = CH_TAIL) then Self.set_tail self point
      else if bool_decide (char = CH_HEAD) then Self.set_head self point
      else self in
    Self.set_body self (Self.body self ++ [point]) (Self.length self + 1)
  else self.

(** [self.body.clear(); self.length = 0], then the scan. *)
Definition get_position (self : Self.t) : Self.t :=
  fold_left get_position_cell (grid_positions (Self.world self))
    (Self.set_body self [] 0).

(** ** Target Selector: [find_best] *)

Definition distance (point_1 point_2 : Position) : Z :=
  Z.abs (Position.x point_1 - Position.x point_2)
  + Z.abs (Position.y point_1 - Position.y point_2).

Definition compute_score (bonus distance : Z) : Result Q :=
  truediv bonus distance.

(** Python's [max] of a non-empty list keeps the first of the greatest
    items; on an empty list it raises [ValueError]. *)
Definition py_max {A : Type} (gt : A -> A -> bool) (l : list A) : Result A :=
  match l with
  | [] => Raise ValueError
  | a :: rest =>
      Ok (fold_left (fun best item => if gt item best then item else best) rest a)
  end.

Definition Qgt_bool (a b : Q) : bool := negb (Qle_bool a b).
Definition Qlt_bool (a b : Q) : bool := Qgt_bool b a.

(** [a > b] on tuples [(float, t)]: the first components decide unless
    they are equal. *)
Definition tuple_gt {B : Type} (gtB : B -> B -> bool) (a b : Q * B) : bool :=
  if Qeq_bool a.1 b.1 then gtB a.2 b.2 else Qgt_bool a.1 b.1.

(** Modelled from the spec: [Position] and [Vector] are value types whose
    order, used only to break ties in [max], is that of their fields
    taken from left to right. *)
Definition Position_gt (a b : Position) : bool :=
  if Position.x a =? Position.x b then Position.y a >? Position.y b
  else Position.x a >? Position.x b.

Definition Vector_gt (a b : Vector) : bool :=
  if Vector.xdir a =? Vector.xdir b then Vector.ydir a >? Vector.ydir b
  else Vector.xdir a >? Vector.xdir b.

(** The two loops of [find_best] over the cells, building [points]. *)
Fixpoint find_best_scan (self : Self.t) (cells : list Position)
    (points : list (Q * Position)) : Result (list (Q * Position)) :=
  match cells with
  | [] => Ok points
  | point :: cells' =>
      let '(char, color) :=
        World.cell (Self.world self) (Position.y point) (Position.x point) in
      match char with
      | CH_DIGIT d =>
          let distance := distance (Self.head self) point in
          score ← compute_score (int d) distance;
          find_best_scan self cells' (points ++ [(score, point)])
      | _ => find_best_scan self cells' points
      end
  end.

Definition find_best (self : Self.t) : Result (option Position) :=
  points ← find_best_scan self (grid_positions (Self.world self)) [];
  match py_max (tuple_gt Position_gt) points with
  | Ok best => Ok (Some best.2)
  | Raise ValueError => Ok None
  | Raise e => Raise e
  end.

(** ** Path Planner: [iter_directions] and [get_to] *)

(** The state of the generator [iter_directions]: whether the preferred
    direction is still to be yielded, and the set of backup directions
    left. *)
Record DirGen : Type := {
  preferred_direction : option Vector;
  backup_directions : list Vector
}.

(** The set [backup_directions] is a list without repetition; the order
    in which [list(backup_directions)] enumerates it is immaterial, the
    element being drawn at random. *)
Definition iter_directions (preferred : Vector) (backups : list Vector) : DirGen :=
  {| preferred_direction := Some preferred; backup_directions := backups |}.

(** The generator run to its next [yield]; [None] when it ends. *)
Definition iter_directions_next (gen : DirGen) (g : Rng)
    : option (Vector * DirGen) * Rng :=
  match preferred_direction gen with
  | Some d =>
      (Some (d, {| preferred_direction := None;
                   backup_directions := backup_directions gen |}), g)
  | None =>
      match backup_directions gen with
      | [] => (None, g)
      | _ =>
          match random_choice (backup_directions gen) g with
          | (Some choice, g') =>
              (Some (choice,
                     {| preferred_direction := None;
                        backup_directions :=
                          remove Vector.eq_dec choice (backup_directions gen) |}),
               g')
          | (None, g') => (None, g')
          end
      end
  end.

(** Lines 74-86: the preferred direction and the set of backup directions
    for the offsets [dx = cx - point.x] and [dy = cy - point.y]. *)
Definition choose_directions (dx dy : Z) : Vector * list Vector :=
  if dx =? 0 then
    (if dy >? 0 then UP else DOWN, [RIGHT; LEFT])
  else if dy =? 0 then
    (if dx >? 0 then LEFT else RIGHT, [UP; DOWN])
  else if Z.abs dx >? Z.abs dy then
    (if dx >? 0 then LEFT else RIGHT, [if dy >? 0 then UP else DOWN])
  else
    (if dy >? 0 then UP else DOWN, [if dx >? 0 then LEFT else RIGHT]).

(** Line 90: [not (self.is_block(next_point) or next_point in self.plan
    or self.free_room(next_point) < 1.0)], with the short-circuit of [or]. *)
Definition accepted (self : Self.t) (next_point : Position) : Result bool :=
  if is_block self next_point then Ok false
  else if bool_decide (next_point ∈ Self.plan self) then Ok false
  else
    room ← free_room self next_point;
    Ok (negb (Qlt_bool room 1)).

(** The [for direction in self.iter_directions(...)] loop: the accepted
    point and direction, or [None] for its [else] branch. *)
Fixpoint for_direction (fuel : nat) (self : Self.t) (cx cy : Z) (gen : DirGen)
    (g : Rng) : option (Result (option (Position * Vector)) * Rng) :=
  match fuel with
  | O => None
  | S fuel' =>
      match iter_directions_next gen g with
      | (None, g') => Some (Ok None, g')
      | (Some (direction, gen'), g') =>
          let next_point :=
            Position.mk (cx + Vector.xdir direction) (cy + Vector.ydir direction) in
          match accepted self next_point with
          | Raise e => Some (Raise e, g')
          | Ok true => Some (Ok (Some (next_point, direction)), g')
          | Ok false => for_direction fuel' self cx cy gen' g'
          end
      end
  end.

(** The [while not (cx == point.x and cy == point.y)] loop; one unit of
    fuel is used by each execution of its body. *)
Fixpoint get_to_loop (fuel : nat) (self : Self.t) (point : Position)
    (cx cy : Z) (g : Rng) : option (Result () * Self.t * Rng) :=
  if (cx =? Position.x point) && (cy =? Position.y point) then
    Some (Ok (), self, g)
  else
    match fuel with
    | O => None
    | S fuel' =>
        let dx := cx - Position.x point in
        let dy := cy - Position.y point in
        let '(preferred, backups) := choose_directions dx dy in
        match for_direction (S (S (List.length backups))) self cx cy
                (iter_directions preferred backups) g with
        | None => None
        | Some (Raise e, g') => Some (Raise e, self, g')
        | Some (Ok None, g') => Some (Raise CannotContinue, self, g')
        | Some (Ok (Some (next_point, direction)), g') =>
            let self' :=
              Self.set_plan self (Self.plan self ++ [next_point])
                (Self.plan_directions self ++ [direction]) in
            get_to_loop fuel' self' point
              (Position.x next_point) (Position.y next_point) g'
        end
    end.

(** Executions of the loop body that always suffice, see
    [get_to_loop_enough]. *)
Definition get_to_fuel (w : World) : nat :=
  S (Z.to_nat (World.SIZE_X w) * Z.to_nat (World.SIZE_Y w)).

Definition get_to (self : Self.t) (point : Position) (g : Rng)
    : Result () * Self.t * Rng :=
  let self0 := Self.set_plan self [] [] in
  default (Raise OutOfFuel, self0, g)
    (get_to_loop (get_to_fuel (Self.world self)) self0 point
       (Position.x (Self.head self)) (Position.y (Self.head self)) g).

(** ** Fallback Maneuver: [backup] *)

(** The [for direction in directions] loop of [backup]: [inl] is its early
    [return direction], [inr] the list [unblocked] it ends with. *)
Fixpoint backup_loop (self : Self.t) (directions : list Vector)
    (unblocked : list (Q * Vector)) : Result (Vector + list (Q * Vector)) :=
  match directions with
  | [] => Ok (inr unblocked)
  | direction :: directions' =>
      let next_point := move (Self.head self) direction in
      if negb (is_block self next_point) then
        free_room ← free_room self next_point;
        if Qeq_bool free_room 1 then Ok (inl direction)
        else backup_loop self directions' (unblocked ++ [(free_room, direction)])
      else backup_loop self directions' unblocked
  end.

Definition backup (self : Self.t) (g : Rng) : Result (option Vector) * Rng :=
  let (directions, g') := random_shuffle DIRECTIONS g in
  (found ← backup_loop self directions [];
   match found with
   | inl direction => Ok (Some direction)
   | inr [] => Ok None
   | inr unblocked =>
       best ← py_max (tuple_gt Vector_gt) unblocked;
       Ok (Some best.2)
   end, g').

(** ** Decision Cycle: [next_direction] *)

Definition next_direction (self : Self.t) (g : Rng)
    : Result (option Vector) * Self.t * Rng :=
  let self := get_position self in
  match find_best self with
  | Raise e => (Raise e, self, g)
  | Ok None => let (r, g') := backup self g in (r, self, g')
  | Ok (Some best) =>
      match get_to self best g with
      | (Raise CannotContinue, self', g') =>
          let (r, g'') := backup self' g' in (r, self', g'')
      | (Raise e, self', g') => (Raise e, self', g')
      | (Ok _, self', g') =>
          match Self.plan_directions self' with
          | next_direction :: rest =>
              (Ok (Some next_direction),
               Self.set_plan self' (Self.plan self') rest, g')
          | [] => let (r, g'') := backup self' g' in (r, self', g'')
          end
      end
  end.

(** ** Notions used to state the properties *)

Definition in_bounds (w : World) (p : Position) : Prop :=
  0 <= Position.x p < World.SIZE_X w /\ 0 <= Position.y p < World.SIZE_Y w.

(** The cells of the grid that are not blocked. *)
Definition open_cells (self : Self.t) : gset Position :=
  list_to_set (filter (fun p => is_block self p = false)
                      (grid_positions (Self.world self))).

(** What one iteration of the flood fill makes smaller: four times the
    open cells not yet done, plus the height of the stack. *)
Definition flood_measure (self : Self.t) (st : FloodState) : nat :=
  (4 * size (open_cells self ∖ done st) + List.length (points_to_check st))%nat.

(** The value [free_room] returns when it starts with [points] counted and
    the generator has [n] more points to yield. *)
Definition free_room_value (len points n : Z) : Result Q :=
  if (0 <? n) && (len <=? points + n) then Ok 1%Q
  else truediv (points + n) len.

(** The open cells that a 4-connected walk over open cells reaches from
    [start]. *)
Inductive reachable (self : Self.t) (start : Position) : Position -> Prop :=
| reachable_start :
    is_block self start = false -> reachable self start start
| reachable_step p q :
    reachable self start p -> distance p q = 1 -> is_block self q = false ->
    reachable self start q.

(** What holds of the generator's state between two iterations. *)
Record flood_inv (self : Self.t) (start : Position) (st : FloodState) : Prop := {
  inv_done : forall p, p ∈ done st -> reachable self start p;
  inv_stack : forall p, p ∈ points_to_check st -> is_block self p = false ->
              reachable self start p;
  inv_closed : forall p q, p ∈ done st -> distance p q = 1 ->
               is_block self q = false ->
               q ∈ done st \/ q ∈ points_to_check st;
  inv_start : is_block self start = false ->
              start ∈ done st \/ start ∈ points_to_check st
}.

(** Every step of the path is to a 4-adjacent cell: the first from
    [prev], each later one from the cell before it. *)
Fixpoint steps_adjacent (prev : Position) (path : list Position) : Prop :=
  match path with
  | [] => True
  | p :: rest => distance prev p = 1 /\ steps_adjacent p rest
  end.

(** What holds of [self.plan] and the simulated position [(cx, cy)]
    between two iterations of the loop of [get_to]. *)
Record plan_inv (self : Self.t) (cx cy : Z) : Prop := {
  plan_nodup : NoDup (Self.plan self);
  plan_adjacent : steps_adjacent (Self.head self) (Self.plan self);
  plan_current :
    default (Self.head self) (last (Self.plan self)) = Position.mk cx cy;
  plan_open : forall p, p ∈ Self.plan self -> is_block self p = false;
  plan_same_length :
    List.length (Self.plan_directions self) = List.length (Self.plan self)
}.

(** The directions the generator has still to yield, at most. *)
Definition gen_measure (gen : DirGen) : nat :=
  (match preferred_direction gen with Some _ => 1 | None => 0 end
   + List.length (backup_directions gen))%nat.

(** The executions of the loop body of [get_to] in a run that appended
    [appended] points and ended with [r]: one per point, and one more for
    the iteration that raised. *)
Definition iterations (appended : nat) (r : Result ()) : nat :=
  match r with
  | Ok _ => appended
  | Raise _ => S appended
  end.

(** The cell [p] of the grid carries the digit [d]. *)
Definition digit_at (self : Self.t) (p : Position) (d : Digit) : Prop :=
  in_bounds (Self.world self) p
  /\ (World.cell (Self.world self) (Position.y p) (Position.x p)).1 = CH_DIGIT d.

(** The score of a digit [d] at [p]: its value over the Manhattan
    distance from the head. *)
Definition score (self : Self.t) (p : Position) (d : Digit) : Q :=
  (inject_Z (int d) / inject_Z (distance (Self.head self) p))%Q.

(** The list [points] that the scan of [find_best] builds from the
    cells, when no score raises. *)
Definition candidates (self : Self.t) (cells : list Position)
    : list (Q * Position) :=
  p ← cells;
  match (World.cell (Self.world self) (Position.y p) (Position.x p)).1 with
  | CH_DIGIT d => [(score self p d, p)]
  | _ => []
  end.

(** ** Example snapshots *)

(** The scenario of the spec: a 10 x 10 grid, empty except for the head of
    the agent (colour 1) at (5,5) and a '9' at (5,2). *)
Definition scenario_world : World :=
  World.mk 10 10
    (fun y x =>
       if (x =? 5) && (y =? 5) then (CH_HEAD, 1)
       else if (x =? 5) && (y =? 2) then (CH_DIGIT D9, 0)
       else (CH_VOID, 0)).

(** The robot as [__init__] leaves it. *)
Definition new_robot (w : World) (color : Z) : Self.t :=
  Self.mk w color 0 (Position.mk 0 0) (Position.mk 0 0) [] [] [].

Definition scenario_robot : Self.t := new_robot scenario_world 1.

(** The scenario after [get_position]: head (5,5), length 1. *)
Definition scenario_snapshot : Self.t := get_position scenario_robot.

(** The scenario of the spec with two rewards: the head at (5,5), a '3'
    at (5,4), distance 1, and a '9' at (5,0), distance 5. *)
Definition two_rewards_world : World :=
  World.mk 10 10
    (fun y x =>
       if (x =? 5) && (y =? 5) then (CH_HEAD, 1)
       else if (x =? 5) && (y =? 4) then (CH_DIGIT D3, 0)
       else if (x =? 5) && (y =? 0) then (CH_DIGIT D9, 0)
       else (CH_VOID, 0)).

Definition two_rewards_snapshot : Self.t :=
  get_position (new_robot two_rewards_world 1).

(** A reward that the planner cannot reach: on a 3 x 3 grid the head at
    (0,0), a '5' at (2,0), and stones at (1,0) and (1,1). *)
Definition walled_world : World :=
  World.mk 3 3
    (fun y x =>
       if (x =? 0) && (y =? 0) then (CH_HEAD, 1)
       else if (x =? 2) && (y =? 0) then (CH_DIGIT D5, 0)
       else if (x =? 1) && ((y =? 0) || (y =? 1)) then (CH_STONE, 0)
       else (CH_VOID, 0)).

Definition walled_robot : Self.t := new_robot walled_world 1.

(** A digit under the head: a 3 x 3 grid with a '5' at (0,0) and no cell
    of the agent's colour, read by a robot whose head is still where
    [__init__] put it, at (0,0). *)
Definition digit_under_head_world : World :=
  World.mk 3 3
    (fun y x =>
       if (x =? 0) && (y =? 0) then (CH_DIGIT D5, 0) else (CH_VOID, 0)).

Definition digit_under_head_robot : Self.t :=
  new_robot digit_under_head_world 1.

(** A grid of two open cells, (0,0) and (0,1), read by a robot that is
    not on it: its head stays at (0,0), where [__init__] put it, and its
    length is 0. *)
Definition column_world : World :=
  World.mk 1 2 (fun y x => (CH_VOID, 0)).

Definition column_robot : Self.t := new_robot column_world 1.

(** ** Further notions *)

(** The symbol and the owner of a cell. *)
Definition cell_char (self : Self.t) (p : Position) : Char :=
  (World.cell (Self.world self) (Position.y p) (Position.x p)).1.

Definition cell_color (self : Self.t) (p : Position) : Z :=
  (World.cell (Self.world self) (Position.y p) (Position.x p)).2.

(** The cells of the agent's colour, in the order of the scan, and those
    among them that carry the symbol [ch]. *)
Definition own_cells (self : Self.t) : list Position :=
  filter (fun p => cell_color self p = Self.color self)
         (grid_positions (Self.world self)).

Definition own_cells_with (self : Self.t) (ch : Char) : list Position :=
  filter (fun p => cell_char self p = ch) (own_cells self).

(** The generator [iter_directions] run to exhaustion: the directions it
    yields, in order, and the random source it leaves. *)
Fixpoint iter_directions_run (fuel : nat) (gen : DirGen) (g : Rng)
    : option (list Vector * Rng) :=
  match fuel with
  | O => None
  | S fuel' =>
      match iter_directions_next gen g with
      | (None, g') => Some ([], g')
      | (Some (d, gen'), g') =>
          match iter_directions_run fuel' gen' g' with
          | Some (ds, g'') => Some (d :: ds, g'')
          | None => None
          end
      end
  end.

(** Each point of the path is the one before it, the first [prev], moved
    by the direction at the same index. *)
Fixpoint steps_follow (prev : Position) (path : list Position)
    (directions : list Vector) : Prop :=
  match path, directions with
  | [], [] => True
  | p :: path', d :: directions' =>
      d ∈ DIRECTIONS /\ p = move prev d /\ steps_follow p path' directions'
  | _, _ => False
  end.

(** The position the planner stands on after the path: its last point,
    or [start] when it is empty. *)
Definition path_end (start : Position) (path : list Position) : Position :=
  default start (last path).

(** The candidate directions of one planner step from [c] toward
    [target]: the preferred one and the backups. *)
Definition step_candidates (c target : Position) : list Vector :=
  let '(preferred, backups) :=
    choose_directions (Position.x c - Position.x target)
                      (Position.y c - Position.y target) in
  preferred :: backups.

(** The neighbour of the head in direction [d] is open and [free_room]
    from it is 1.0. *)
Definition full_room (self : Self.t) (d : Vector) : Prop :=
  is_block self (move (Self.head self) d) = false
  /\ free_room self (move (Self.head self) d) = Ok 1%Q.

(** Two robots see the same thing: the same world, length and head. *)
Definition same_view (s1 s2 : Self.t) : Prop :=
  Self.world s1 = Self.world s2
  /\ Self.length s1 = Self.length s2
  /\ Self.head s1 = Self.head s2.


(** * Properties *)

(** ** The grid *)


Lemma elem_of_grid_positions (w : World) (p : Position) :
  p ∈ grid_positions w <-> in_bounds w p.
Proof.
  unfold grid_positions, in_bounds. rewrite list_elem_of_bind. split.
  - intros (yy & Hp & Hy). apply list_elem_of_bind in Hp as (xx & Hp & Hx).
    apply list_elem_of_singleton in Hp. subst p. simpl.
    apply elem_of_seqZ in Hy, Hx. lia.
  - intros [Hx Hy]. exists (Position.y p). split.
    + apply list_elem_of_bind. exists (Position.x p). split.
      * destruct p. simpl. apply list_elem_of_singleton. reflexivity.
      * apply elem_of_seqZ. lia.
    + apply elem_of_seqZ. lia.
Qed.

Lemma length_grid_positions (w : World) :
  List.length (grid_positions w)
  = (Z.to_nat (World.SIZE_X w) * Z.to_nat (World.SIZE_Y w))%nat.
Proof.
  unfold grid_positions.
  generalize (seqZ 0 (World.SIZE_X w)) (length_seqZ 0 (World.SIZE_X w)).
  intros row Hrow. rewrite <- (length_seqZ 0 (World.SIZE_Y w)).
  induction (seqZ 0 (World.SIZE_Y w)) as [|yy rows IH]; csimpl.
  - lia.
  - rewrite length_app, IH.
    assert (List.length (row ≫= λ x : Z, [Position.mk x yy]) = List.length row) as ->.
    { clear. induction row; csimpl; auto. }
    lia.
Qed.

Lemma is_block_false_in_bounds (self : Self.t) (p : Position) :
  is_block self p = false -> in_bounds (Self.world self) p.
Proof.
  unfold is_block, in_bounds. intros H.
  destruct (Z.ltb_spec (Position.x p) 0); [discriminate|].
  destruct (Z.geb_spec (Position.x p) (World.SIZE_X (Self.world self)));
    [discriminate|].
  destruct (Z.ltb_spec (Position.y p) 0); [discriminate|].
  destruct (Z.geb_spec (Position.y p) (World.SIZE_Y (Self.world self)));
    [discriminate|].
  lia.
Qed.


Lemma elem_of_open_cells (self : Self.t) (p : Position) :
  p ∈ open_cells self <-> is_block self p = false.
Proof.
  unfold open_cells. rewrite elem_of_list_to_set, list_elem_of_filter.
  rewrite elem_of_grid_positions. split; [tauto|].
  intros H. split; [done|]. by apply is_block_false_in_bounds.
Qed.

Lemma size_list_to_set_le (l : list Position) :
  (size (list_to_set l : gset Position) <= List.length l)%nat.
Proof.
  induction l as [|a l IH].
  - rewrite list_to_set_nil, size_empty. simpl. lia.
  - rewrite list_to_set_cons, size_union_alt, size_singleton. simpl.
    assert (list_to_set l ∖ {[a]} ⊆ (list_to_set l : gset Position)) as Hs
      by set_solver.
    apply subseteq_size in Hs. lia.
Qed.

Lemma size_open_cells (self : Self.t) :
  (size (open_cells self)
   <= Z.to_nat (World.SIZE_X (Self.world self))
      * Z.to_nat (World.SIZE_Y (Self.world self)))%nat.
Proof.
  unfold open_cells.
  etransitivity; [apply size_list_to_set_le|].
  rewrite <- length_grid_positions. apply length_filter.
Qed.

(** ** Termination of the flood fill *)


Lemma length_add_neighborhood cp (dn : gset Position) stack :
  (List.length (add_neighborhood cp dn stack) <= 4 + List.length stack)%nat.
Proof.
  unfold add_neighborhood, DIRECTIONS. simpl.
  repeat case_bool_decide; simpl; lia.
Qed.

Lemma flood_step_measure self st o st' :
  flood_step self st = Some (o, st') ->
  (flood_measure self st' < flood_measure self st)%nat.
Proof.
  unfold flood_step, flood_measure.
  destruct st as [[|cp rest] dn]; simpl; [discriminate|].
  case_bool_decide as Hdn.
  - intros [= <- <-]. simpl.
    assert (open_cells self ∖ (dn ∪ {[cp]}) ⊆ open_cells self ∖ dn) as Hs
      by set_solver.
    apply subseteq_size in Hs. lia.
  - destruct (is_block self cp) eqn:Hb.
    + intros [= <- <-]. simpl. lia.
    + intros [= <- <-]. simpl.
      pose proof (length_add_neighborhood cp dn rest).
      assert (open_cells self ∖ (dn ∪ {[cp]}) = (open_cells self ∖ dn) ∖ {[cp]})
        as -> by set_solver.
      rewrite size_difference.
      2:{ apply singleton_subseteq_l, elem_of_difference.
          split; [by apply elem_of_open_cells|done]. }
      rewrite size_singleton.
      assert (size (open_cells self ∖ dn) <> 0%nat).
      { intros Hz. apply size_empty_inv in Hz.
        assert (cp ∈ open_cells self ∖ dn) as Hin.
        { apply elem_of_difference. split; [by apply elem_of_open_cells|done]. }
        set_solver. }
      lia.
Qed.

Lemma flood_fill_from_enough self fuel st :
  (flood_measure self st < fuel)%nat ->
  exists ys, flood_fill_from fuel self st = Some ys.
Proof.
  revert st. induction fuel as [|fuel IH]; intros st Hm; [lia|].
  simpl. destruct (flood_step self st) as [[o st']|] eqn:Hstep.
  - apply flood_step_measure in Hstep.
    destruct (IH st') as [ys Hys]; [lia|].
    rewrite Hys. destruct o; simpl; eauto.
  - eauto.
Qed.

Lemma flood_fill_from_mono self fuel fuel' st ys :
  flood_fill_from fuel self st = Some ys -> (fuel <= fuel')%nat ->
  flood_fill_from fuel' self st = Some ys.
Proof.
  revert fuel' st ys. induction fuel as [|fuel IH]; intros fuel' st ys H Hle;
    [discriminate|].
  destruct fuel' as [|fuel']; [lia|]. simpl in *.
  destruct (flood_step self st) as [[[cp|] st']|]; try done.
  - destruct (flood_fill_from fuel self st') as [ys'|] eqn:E; [|discriminate].
    rewrite (IH fuel' st' ys' E); [done|lia].
  - apply IH; [done|lia].
Qed.

Lemma flood_fuel_enough self point :
  (flood_measure self (flood_init point) < flood_fuel (Self.world self))%nat.
Proof.
  unfold flood_measure, flood_fuel, flood_init. simpl.
  pose proof (size_open_cells self).
  assert (open_cells self ∖ ∅ = open_cells self) as -> by set_solver.
  lia.
Qed.

Lemma flood_fill_eq self point :
  flood_fill_from (flood_fuel (Self.world self)) self (flood_init point)
  = Some (flood_fill self point).
Proof.
  unfold flood_fill.
  destruct (flood_fill_from_enough self _ _ (flood_fuel_enough self point))
    as [ys ->]. done.
Qed.

(** ** [free_room] in terms of the points the flood fill yields *)


Lemma free_room_loop_spec self fuel st points ys :
  flood_fill_from fuel self st = Some ys ->
  free_room_loop fuel self st points
  = Some (free_room_value (Self.length self) points (Z.of_nat (List.length ys))).
Proof.
  revert st points ys. induction fuel as [|fuel IH]; intros st points ys H;
    [discriminate|].
  simpl in *. destruct (flood_step self st) as [[[cp|] st']|].
  - destruct (flood_fill_from fuel self st') as [ys'|] eqn:E; [|discriminate].
    simpl in H. injection H as <-.
    unfold free_room_value. rewrite length_cons.
    destruct (Z.geb_spec (points + 1) (Self.length self)) as [Hge|Hlt].
    + f_equal.
      destruct (Z.ltb_spec 0 (Z.of_nat (S (List.length ys')))); [|lia].
      destruct (Z.leb_spec (Self.length self)
                  (points + Z.of_nat (S (List.length ys')))); [done|lia].
    + rewrite (IH st' (points + 1) ys' E). f_equal. unfold free_room_value.
      destruct (Z.ltb_spec 0 (Z.of_nat (S (List.length ys')))); [|lia].
      replace (points + Z.of_nat (S (List.length ys')))
        with (points + 1 + Z.of_nat (List.length ys')) by lia.
      simpl.
      destruct (Z.ltb_spec 0 (Z.of_nat (List.length ys'))); simpl; [done|].
      destruct (Z.leb_spec (Self.length self)
                  (points + 1 + Z.of_nat (List.length ys'))); [lia|done].
  - by apply IH.
  - injection H as <-. unfold free_room_value. simpl.
    by rewrite Z.add_0_r.
Qed.

Lemma free_room_eq self point :
  free_room self point
  = free_room_value (Self.length self) 0
      (Z.of_nat (List.length (flood_fill self point))).
Proof.
  unfold free_room.
  by rewrite (free_room_loop_spec _ _ _ _ _ (flood_fill_eq self point)).
Qed.

(** With enough fuel, the loop of [free_room] returns what [free_room]
    returns. *)
Lemma free_room_loop_enough self point fuel :
  (flood_fuel (Self.world self) <= fuel)%nat ->
  free_room_loop fuel self (flood_init point) 0 = Some (free_room self point).
Proof.
  intros Hle. rewrite free_room_eq. apply free_room_loop_spec.
  eapply flood_fill_from_mono; [apply flood_fill_eq|done].
Qed.

(** ** Correctness of the flood fill *)

(** The cells at Manhattan distance 1 are the four neighbours. *)
Lemma distance_1_iff (p q : Position) :
  distance p q = 1 <->
  q = move p UP \/ q = move p DOWN \/ q = move p LEFT \/ q = move p RIGHT.
Proof.
  unfold distance, move, UP, DOWN, LEFT, RIGHT. destruct p as [px py], q as [qx qy].
  simpl. split.
  - intros H.
    assert ((qx = px /\ qy = py + -1) \/ (qx = px /\ qy = py + 1)
            \/ (qx = px + -1 /\ qy = py) \/ (qx = px + 1 /\ qy = py)) as Hc by lia.
    destruct Hc as [[-> ->]|[[-> ->]|[[-> ->]|[-> ->]]]];
      rewrite ?Z.add_0_r; auto.
  - intros [H|[H|[H|H]]]; injection H as -> ->; lia.
Qed.

Lemma distance_move (p : Position) (d : Vector) :
  d ∈ DIRECTIONS -> distance p (move p d) = 1.
Proof.
  intros Hd. apply distance_1_iff. unfold DIRECTIONS in Hd.
  repeat (apply elem_of_cons in Hd as [->|Hd]; [tauto|]).
  by apply elem_of_nil in Hd.
Qed.


Lemma reachable_open self start p :
  reachable self start p -> is_block self p = false.
Proof. by destruct 1. Qed.

Lemma elem_of_add_neighborhood cp (dn : gset Position) stack q :
  q ∈ add_neighborhood cp dn stack <->
  q ∈ stack \/ ((q ∉ dn) /\ distance cp q = 1).
Proof.
  rewrite distance_1_iff. unfold add_neighborhood, DIRECTIONS. simpl.
  repeat case_bool_decide; rewrite ?elem_of_cons; naive_solver.
Qed.

Section FloodFillCorrect.
Variable self : Self.t.
Variable start : Position.


Lemma flood_inv_init : flood_inv self start (flood_init start).
Proof.
  split; simpl.
  - intros p Hp. set_solver.
  - intros p Hp Hb. apply list_elem_of_singleton in Hp as ->.
    by constructor.
  - intros p q Hp. set_solver.
  - intros _. right. by apply list_elem_of_singleton.
Qed.

Lemma flood_inv_step st o st' :
  flood_inv self start st -> flood_step self st = Some (o, st') ->
  flood_inv self start st'.
Proof.
  intros [Hd Hs Hc Hst]. unfold flood_step.
  destruct st as [[|cp rest] dn]; simpl in *; [discriminate|].
  case_bool_decide as Hdn; [|destruct (is_block self cp) eqn:Hb];
    intros [= <- <-]; split; simpl.
  - intros p Hp. apply Hd. set_solver.
  - intros p Hp. apply Hs. by right.
  - intros p q Hp Hq Hb. assert (p ∈ dn) as Hp' by set_solver.
    destruct (Hc p q Hp' Hq Hb) as [?|Hin]; [left; set_solver|].
    apply elem_of_cons in Hin as [->|?]; [left; set_solver|by right].
  - intros Hb. destruct (Hst Hb) as [?|Hin]; [left; set_solver|].
    apply elem_of_cons in Hin as [->|?]; [left; set_solver|by right].
  - done.
  - intros p Hp. apply Hs. by right.
  - intros p q Hp Hq Hbq. destruct (Hc p q Hp Hq Hbq) as [?|Hin]; [by left|].
    apply elem_of_cons in Hin as [->|?]; [congruence|by right].
  - intros Hbs. destruct (Hst Hbs) as [?|Hin]; [by left|].
    apply elem_of_cons in Hin as [->|?]; [congruence|by right].
  - intros p Hp. apply elem_of_union in Hp as [Hp|Hp]; [by apply Hd|].
    apply elem_of_singleton in Hp as ->. apply Hs; [by left|done].
  - intros p Hp Hbp. apply elem_of_add_neighborhood in Hp as [Hp|[_ Hp]].
    + apply Hs; [by right|done].
    + eapply reachable_step; [|exact Hp|exact Hbp]. apply Hs; [by left|done].
  - intros p q Hp Hq Hbq.
    destruct (decide (q ∈ dn ∪ {[cp]})) as [?|Hnq]; [by left|right].
    apply elem_of_add_neighborhood.
    apply elem_of_union in Hp as [Hp|Hp].
    + destruct (Hc p q Hp Hq Hbq) as [?|Hin]; [set_solver|].
      apply elem_of_cons in Hin as [->|?]; [set_solver|by left].
    + apply elem_of_singleton in Hp as ->. right. split; [set_solver|done].
  - intros Hbs. destruct (Hst Hbs) as [?|Hin]; [left; set_solver|].
    apply elem_of_cons in Hin as [->|?]; [left; set_solver|].
    right. apply elem_of_add_neighborhood. by left.
Qed.

(** When the stack is empty, the done set holds every reachable cell. *)
Lemma flood_inv_final dn p :
  flood_inv self start {| points_to_check := []; done := dn |} ->
  reachable self start p -> p ∈ dn.
Proof.
  intros [Hd Hs Hc Hst]. simpl in *. induction 1 as [Hb|p q Hp IH Hq Hbq].
  - destruct (Hst Hb) as [?|Hin]; [done|]. by apply elem_of_nil in Hin.
  - destruct (Hc p q IH Hq Hbq) as [?|Hin]; [done|]. by apply elem_of_nil in Hin.
Qed.

Lemma flood_fill_from_correct fuel st ys :
  flood_inv self start st -> flood_fill_from fuel self st = Some ys ->
  NoDup ys /\ (forall p, p ∈ ys -> p ∉ done st)
  /\ (forall p, reachable self start p <-> p ∈ ys \/ p ∈ done st).
Proof.
  revert st ys. induction fuel as [|fuel IH]; intros st ys Hinv H;
    [discriminate|].
  simpl in H. destruct (flood_step self st) as [[o st']|] eqn:Hstep.
  - pose proof (flood_inv_step _ _ _ Hinv Hstep) as Hinv'.
    assert (done st ⊆ done st' /\
            match o with
            | Some cp => (cp ∉ done st) /\ done st' = done st ∪ {[cp]}
            | None => done st' = done st
            end) as [Hsub Ho].
    { clear -Hstep. unfold flood_step in Hstep.
      destruct st as [[|cp rest] dn]; simpl in *; [discriminate|].
      case_bool_decide; [|destruct (is_block self cp)];
        injection Hstep as <- <-; simpl; set_solver. }
    destruct o as [cp|].
    + destruct (flood_fill_from fuel self st') as [ys'|] eqn:E; [|discriminate].
      simpl in H. injection H as <-.
      destruct (IH st' ys' Hinv' E) as (Hnd & Hdis & Hreach).
      destruct Ho as [Hcp Hdn]. split_and!.
      * constructor; [|done]. intros Hin. apply Hdis in Hin. set_solver.
      * intros p Hp. apply elem_of_cons in Hp as [->|Hp]; [done|].
        apply Hdis in Hp. set_solver.
      * intros p. rewrite Hreach, Hdn, elem_of_cons. set_solver.
    + destruct (IH st' ys Hinv' H) as (Hnd & Hdis & Hreach).
      split_and!; [done| |].
      * intros p Hp. apply Hdis in Hp. set_solver.
      * intros p. rewrite Hreach, Ho. done.
  - injection H as <-. unfold flood_step in Hstep.
    destruct st as [[|cp rest] dn]; simpl in *.
    + split_and!; [constructor|set_solver|].
      intros p. split.
      * intros Hp. right. by eapply flood_inv_final.
      * intros [Hp|Hp]; [by apply elem_of_nil in Hp|]. by apply (inv_done _ _ _ Hinv).
    + case_bool_decide; [|destruct (is_block self cp)]; discriminate.
Qed.

(** [flood_fill] yields each cell reachable from [start] once, and nothing
    else. *)
Lemma flood_fill_correct :
  NoDup (flood_fill self start)
  /\ (forall p, p ∈ flood_fill self start <-> reachable self start p).
Proof.
  destruct (flood_fill_from_correct _ _ _ flood_inv_init (flood_fill_eq self start))
    as (Hnd & _ & Hreach).
  split; [done|]. intros p. rewrite Hreach. simpl. set_solver.
Qed.

(** The number of points yielded is the number of reachable cells,
    however the set of these is given. *)
Lemma length_flood_fill (R : gset Position) :
  (forall p, p ∈ R <-> reachable self start p) ->
  List.length (flood_fill self start) = size R.
Proof.
  intros HR. destruct flood_fill_correct as [Hnd Hin].
  unfold size, set_size. simpl. apply Permutation_length.
  apply NoDup_Permutation; [done|apply NoDup_elements|].
  intros p. rewrite elem_of_elements, Hin, HR. done.
Qed.

End FloodFillCorrect.

(** ** What the estimator depends on: the world and the length *)

Lemma is_block_ext s1 s2 p :
  Self.world s1 = Self.world s2 -> is_block s1 p = is_block s2 p.
Proof. unfold is_block. by intros ->. Qed.

Lemma flood_step_ext s1 s2 st :
  Self.world s1 = Self.world s2 -> flood_step s1 st = flood_step s2 st.
Proof.
  intros Hw. unfold flood_step. destruct (points_to_check st); [done|].
  by rewrite (is_block_ext s1 s2 _ Hw).
Qed.

Lemma flood_fill_from_ext s1 s2 fuel st :
  Self.world s1 = Self.world s2 ->
  flood_fill_from fuel s1 st = flood_fill_from fuel s2 st.
Proof.
  intros Hw. revert st. induction fuel as [|fuel IH]; intros st; [done|].
  simpl. rewrite (flood_step_ext s1 s2 st Hw).
  destruct (flood_step s2 st) as [[[cp|] st']|]; by rewrite ?IH.
Qed.

Lemma flood_fill_ext s1 s2 p :
  Self.world s1 = Self.world s2 -> flood_fill s1 p = flood_fill s2 p.
Proof.
  intros Hw. unfold flood_fill. by rewrite Hw, (flood_fill_from_ext s1 s2 _ _ Hw).
Qed.

Lemma free_room_ext s1 s2 p :
  Self.world s1 = Self.world s2 -> Self.length s1 = Self.length s2 ->
  free_room s1 p = free_room s2 p.
Proof.
  intros Hw Hl. by rewrite !free_room_eq, Hl, (flood_fill_ext s1 s2 p Hw).
Qed.

(** ** Rational arithmetic of [points / length] *)

Ltac q_order := intros; unfold Qle, Qlt; simpl; lia.

Lemma truediv_pos a b : 0 < b -> truediv a b = Ok (a # Z.to_pos b).
Proof.
  intros Hb. unfold truediv. destruct (Z.eqb_spec b 0); [lia|].
  destruct b as [|b|b]; try lia. vm_compute Z.to_pos. f_equal.
  unfold Qdiv, Qinv, Qmult, inject_Z. simpl. f_equal; lia.
Qed.

Lemma Qmake_le a b c d :
  0 < b -> 0 < d -> a * d <= c * b -> (a # Z.to_pos b <= c # Z.to_pos d)%Q.
Proof. intros. unfold Qle. simpl. rewrite !Z2Pos.id by lia. done. Qed.

Lemma Qmake_le_1 a b : 0 < b -> a <= b -> (a # Z.to_pos b <= 1)%Q.
Proof. intros. unfold Qle. simpl. rewrite !Z2Pos.id by lia. lia. Qed.

Lemma Qmake_ge_0 a b : 0 <= a -> (0 <= a # b)%Q.
Proof. intros. unfold Qle. simpl. lia. Qed.

Lemma Qmake_gt_0 a b : 0 < a -> (0 < a # b)%Q.
Proof. intros. unfold Qlt. simpl. lia. Qed.

(** ** The flood fill from a blocked or an open start *)

Lemma flood_fill_blocked self start :
  is_block self start = true -> flood_fill self start = [].
Proof.
  intros Hb. destruct (flood_fill self start) as [|p ys] eqn:E; [done|].
  assert (reachable self start p) as Hr.
  { apply (flood_fill_correct self start). rewrite E. by left. }
  exfalso. clear E. induction Hr; [congruence|done].
Qed.

Lemma flood_fill_open self start :
  is_block self start = false -> (0 < List.length (flood_fill self start))%nat.
Proof.
  intros Hb. assert (start ∈ flood_fill self start) as Hin.
  { apply (flood_fill_correct self start). by constructor. }
  destruct (flood_fill self start); [by apply elem_of_nil in Hin|simpl; lia].
Qed.

(** ** C6: the range of [free_room] *)

(** C6, as amended.  With an agent length of at least 1, [free_room]
    returns a fraction between 0 and 1 inclusive; it is 0 when the start
    is blocked and strictly positive when the start is open. *)
Theorem free_room_range (self : Self.t) (start : Position) :
  1 <= Self.length self ->
  exists q, free_room self start = Ok q
            /\ (0 <= q)%Q /\ (q <= 1)%Q
            /\ (is_block self start = true -> (q == 0)%Q)
            /\ (is_block self start = false -> (0 < q)%Q).
Proof.
  intros Hlen. rewrite free_room_eq. unfold free_room_value.
  rewrite Z.add_0_l. destruct (is_block self start) eqn:Hb.
  - rewrite (flood_fill_blocked _ _ Hb). simpl.
    rewrite truediv_pos by lia. eexists. split; [done|].
    split_and!; [by apply Qmake_ge_0|apply Qmake_le_1; lia|done|done].

  - pose proof (flood_fill_open _ _ Hb) as Hn.
    destruct (Z.ltb_spec 0 (Z.of_nat (List.length (flood_fill self start))));
      [|lia].
    simpl. destruct (Z.leb_spec (Self.length self)
                       (Z.of_nat (List.length (flood_fill self start)))).
    + exists 1%Q. split_and!; [done|q_order|q_order|done|q_order].
    + rewrite truediv_pos by lia. eexists. split; [done|].
      split_and!; [apply Qmake_ge_0; lia|apply Qmake_le_1; lia|done|].
      intros _. apply Qmake_gt_0. lia.
Qed.

Lemma free_room_range_witness :
  exists q, free_room scenario_snapshot (Position.mk 5 4) = Ok q
            /\ (0 <= q)%Q /\ (q <= 1)%Q
            /\ (is_block scenario_snapshot (Position.mk 5 4) = true -> (q == 0)%Q)
            /\ (is_block scenario_snapshot (Position.mk 5 4) = false -> (0 < q)%Q).
Proof.
  apply (free_room_range scenario_snapshot (Position.mk 5 4)).
  vm_compute. discriminate.
Defined.

(** Counterexample to C6 as the claim states it: on a blocked start, here
    the head's own cell, the fraction is 0, which is not strictly
    positive. *)
Lemma free_room_blocked_start_not_positive :
  1 <= Self.length scenario_snapshot
  /\ is_block scenario_snapshot (Position.mk 5 5) = true
  /\ free_room scenario_snapshot (Position.mk 5 5) = Ok (0 # 1)%Q
  /\ ~ (exists q, free_room scenario_snapshot (Position.mk 5 5) = Ok q
                  /\ (0 < q)%Q /\ (q <= 1)%Q).
Proof.
  assert (free_room scenario_snapshot (Position.mk 5 5) = Ok (0 # 1)%Q) as E
    by (vm_compute; reflexivity).
  split_and!; [vm_compute; discriminate|vm_compute; reflexivity|exact E|].
  intros (q & Hq & Hpos & _). rewrite E in Hq. injection Hq as <-.
  revert Hpos. unfold Qlt. simpl. lia.
Qed.

(** ** C7: [free_room] against the limit *)

(** C7.  For a fixed world and start, and [R] the set of open cells that
    are 4-connected to the start: evaluated with agent length [limit >= 1],
    [free_room] does not decrease when the limit decreases, and it is
    exactly 1.0 when the limit is at most the number of cells of [R]. *)
Theorem free_room_limit (self : Self.t) (start : Position)
    (R : gset Position) (limit limit' : Z) :
  (forall p, p ∈ R <-> reachable self start p) ->
  1 <= limit -> limit <= limit' ->
  exists q q',
    free_room (Self.set_length self limit) start = Ok q
    /\ free_room (Self.set_length self limit') start = Ok q'
    /\ (q' <= q)%Q
    /\ (limit <= Z.of_nat (size R) -> q = 1%Q).
Proof.
  intros HR H1 Hle.
  rewrite !free_room_eq.
  rewrite (flood_fill_ext (Self.set_length self limit) self) by done.
  rewrite (flood_fill_ext (Self.set_length self limit') self) by done.
  rewrite (length_flood_fill self start R HR). simpl Self.length.
  unfold free_room_value. rewrite !Z.add_0_l.
  set (n := Z.of_nat (size R)). assert (0 <= n) by lia.
  destruct (Z.ltb_spec 0 n); simpl.
  - destruct (Z.leb_spec limit n), (Z.leb_spec limit' n); try lia.
    + exists 1%Q, 1%Q. split_and!; [done|done|q_order|done].
    + rewrite truediv_pos by lia. eexists _, _. split_and!; [done..| |done].
      apply Qmake_le_1; lia.
    + rewrite !truediv_pos by lia. eexists _, _. split_and!; [done..| |lia].
      apply Qmake_le; [lia..|nia].
  - assert (n = 0) as -> by lia.
    rewrite !truediv_pos by lia. eexists _, _. split_and!; [done..| |lia].
    apply Qmake_le; lia.
Qed.

Lemma free_room_limit_witness :
  exists q q',
    free_room (Self.set_length scenario_snapshot 3) (Position.mk 5 4) = Ok q
    /\ free_room (Self.set_length scenario_snapshot 200) (Position.mk 5 4) = Ok q'
    /\ (q' <= q)%Q
    /\ (3 <= Z.of_nat (size (list_to_set (flood_fill scenario_snapshot (Position.mk 5 4))
                               : gset Position)) -> q = 1%Q).
Proof.
  apply (free_room_limit scenario_snapshot (Position.mk 5 4)
           (list_to_set (flood_fill scenario_snapshot (Position.mk 5 4))) 3 200).
  - intros p. rewrite elem_of_list_to_set.
    apply (flood_fill_correct scenario_snapshot (Position.mk 5 4)).
  - lia.
  - lia.
Defined.

(** ** The directions tried in one step of the planner *)

Lemma choose_directions_in dx dy preferred backups :
  choose_directions dx dy = (preferred, backups) ->
  preferred ∈ DIRECTIONS /\ (forall b, b ∈ backups -> b ∈ DIRECTIONS)
  /\ (List.length backups <= 2)%nat.
Proof.
  unfold choose_directions, DIRECTIONS.
  repeat case_match; intros [= <- <-]; (split; [set_solver|]);
    (split; [set_solver|simpl; lia]).
Qed.

Lemma random_choice_elem {A : Type} (l : list A) (g g' : Rng) (c : A) :
  random_choice l g = (Some c, g') -> c ∈ l.
Proof.
  unfold random_choice. destruct (randbelow (List.length l) g) as [i g1].
  intros [= H _]. by apply list_elem_of_lookup_2 in H.
Qed.

Lemma elem_of_remove (c v : Vector) (l : list Vector) :
  v ∈ remove Vector.eq_dec c l -> v ∈ l.
Proof.
  rewrite !list_elem_of_In. intros H. by apply in_remove in H as [H _].
Qed.

Lemma length_remove_lt (c : Vector) (l : list Vector) :
  c ∈ l -> (List.length (remove Vector.eq_dec c l) < List.length l)%nat.
Proof. rewrite list_elem_of_In. apply remove_length_lt. Qed.

Lemma iter_directions_next_some gen g d gen' g' :
  iter_directions_next gen g = (Some (d, gen'), g') ->
  (preferred_direction gen = Some d \/ d ∈ backup_directions gen)
  /\ preferred_direction gen' = None
  /\ (forall b, b ∈ backup_directions gen' -> b ∈ backup_directions gen)
  /\ (gen_measure gen' < gen_measure gen)%nat.
Proof.
  unfold iter_directions_next, gen_measure.
  destruct gen as [[p|] bs]; simpl.
  - intros [= <- <- <-]. simpl. split_and!; auto.
  - destruct bs as [|b bs'] eqn:Ebs; [discriminate|]. rewrite <- Ebs. clear Ebs.
    destruct (random_choice bs g) as [[c|] g1] eqn:E; [|discriminate].
    intros [= <- <- <-]. cbn [preferred_direction backup_directions].
    apply random_choice_elem in E.
    split_and!; [by right|done| |].
    + intros v. apply elem_of_remove.
    + apply length_remove_lt in E. lia.
Qed.

(** [free_room] does not raise on an open cell, and the planner calls it
    on no other. *)
Lemma free_room_open_ok self p :
  is_block self p = false -> exists q, free_room self p = Ok q.
Proof.
  intros Hb. rewrite free_room_eq. unfold free_room_value.
  pose proof (flood_fill_open _ _ Hb) as Hn. rewrite Z.add_0_l.
  destruct (Z.ltb_spec 0 (Z.of_nat (List.length (flood_fill self p)))); [|lia].
  simpl. destruct (Z.leb_spec (Self.length self)
                     (Z.of_nat (List.length (flood_fill self p)))); [eauto|].
  rewrite truediv_pos by lia. eauto.
Qed.

Lemma accepted_ok self p : exists b, accepted self p = Ok b.
Proof.
  unfold accepted. destruct (is_block self p) eqn:Hb; [eauto|].
  case_bool_decide; [eauto|].
  destruct (free_room_open_ok _ _ Hb) as [q ->]. simpl. eauto.
Qed.

Lemma accepted_true self p :
  accepted self p = Ok true ->
  is_block self p = false /\ (p ∉ Self.plan self) /\ free_room self p = Ok 1%Q
  \/ is_block self p = false /\ (p ∉ Self.plan self)
     /\ exists q, free_room self p = Ok q /\ Qlt_bool q 1 = false.
Proof.
  unfold accepted. destruct (is_block self p) eqn:Hb; [discriminate|].
  case_bool_decide as Hin; [discriminate|].
  destruct (free_room self p) as [q|e] eqn:E; simpl; [|discriminate].
  intros [= H]. right. split_and!; [done..|]. exists q. split; [done|].
  by destruct (Qlt_bool q 1).
Qed.

(** The [for] loop returns: it accepts a candidate direction, or ends
    with none, and raises nothing. *)
Lemma for_direction_enough fuel self cx cy gen g :
  (gen_measure gen < fuel)%nat ->
  exists o g', for_direction fuel self cx cy gen g = Some (Ok o, g').
Proof.
  revert gen g. induction fuel as [|fuel IH]; intros gen g Hm; [lia|].
  simpl. destruct (iter_directions_next gen g) as [[[d gen']|] g1] eqn:E;
    [|eauto].
  apply iter_directions_next_some in E as (_ & _ & _ & Hlt).
  destruct (accepted_ok self
              (Position.mk (cx + Vector.xdir d) (cy + Vector.ydir d)))
    as [[|] ->]; [eauto|].
  apply IH. lia.
Qed.

Lemma for_direction_accepts fuel self cx cy gen g next_point d g' :
  for_direction fuel self cx cy gen g = Some (Ok (Some (next_point, d)), g') ->
  next_point = move (Position.mk cx cy) d
  /\ accepted self next_point = Ok true
  /\ (preferred_direction gen = Some d \/ d ∈ backup_directions gen).
Proof.
  revert gen g. induction fuel as [|fuel IH]; intros gen g H; [discriminate|].
  simpl in H.
  destruct (iter_directions_next gen g) as [[[d1 gen']|] g1] eqn:E;
    [|discriminate].
  apply iter_directions_next_some in E as (Hd & Hnone & Hsub & _).
  destruct (accepted self
              (Position.mk (cx + Vector.xdir d1) (cy + Vector.ydir d1)))
    as [[|]|e] eqn:Ha.
  - injection H as <- <- <-. done.
  - apply IH in H as (Hp & Hacc & [Hpre|Hin]); [congruence|auto].
  - discriminate.
Qed.

Lemma elem_of_remove_ne (c v : Vector) (l : list Vector) :
  v ∈ l -> v <> c -> v ∈ remove Vector.eq_dec c l.
Proof. rewrite !list_elem_of_In. intros. by apply in_in_remove. Qed.

(** The [for] loop reaches its [else] branch only when every candidate,
    the preferred direction and each backup, was tried and refused. *)
Lemma for_direction_none fuel self cx cy gen g g' d :
  for_direction fuel self cx cy gen g = Some (Ok None, g') ->
  preferred_direction gen = Some d \/ d ∈ backup_directions gen ->
  accepted self (move (Position.mk cx cy) d) = Ok false.
Proof.
  revert gen g. induction fuel as [|fuel IH]; intros gen g H Hd;
    [discriminate|].
  simpl in H.
  destruct (iter_directions_next gen g) as [[[d1 gen']|] g1] eqn:E.
  - destruct (accepted self
                (Position.mk (cx + Vector.xdir d1) (cy + Vector.ydir d1)))
      as [[|]|e] eqn:Ha; try discriminate.
    destruct (decide (d = d1)) as [->|Hne]; [exact Ha|].
    apply (IH gen' g1 H). right.
    unfold iter_directions_next in E.
    destruct (preferred_direction gen) as [p|] eqn:Hp.
    + injection E as <- <- <-. simpl. destruct Hd as [Hd|Hd]; [congruence|done].
    + destruct Hd as [Hd|Hd]; [discriminate|].
      destruct (backup_directions gen) as [|b bs'] eqn:Ebs;
        [by apply elem_of_nil in Hd|]. rewrite <- Ebs in *. clear Ebs.
      destruct (random_choice (backup_directions gen) g) as [[c|] g2];
        [|discriminate].
      injection E as <- <- <-. simpl. by apply elem_of_remove_ne.
  - unfold iter_directions_next in E.
    destruct (preferred_direction gen) as [p|]; [discriminate|].
    destruct Hd as [Hd|Hd]; [discriminate|].
    destruct (backup_directions gen) as [|b bs'] eqn:Ebs;
      [by apply elem_of_nil in Hd|]. rewrite <- Ebs in *. clear Ebs.
    destruct (random_choice (backup_directions gen) g) as [[c|] g2] eqn:Ec;
      [discriminate|].
    unfold random_choice, randbelow in Ec. destruct (draw g) as [k g3].
    injection Ec as Hlook _. apply lookup_ge_None in Hlook.
    destruct (backup_directions gen) as [|b0 bs0]; [by apply elem_of_nil in Hd|].
    pose proof (Nat.mod_upper_bound k (List.length (b0 :: bs0))) as Hlt.
    simpl in *. lia.
Qed.

(** ** The loop of [get_to] *)

Lemma steps_adjacent_snoc prev path p :
  steps_adjacent prev path -> distance (default prev (last path)) p = 1 ->
  steps_adjacent prev (path ++ [p]).
Proof.
  revert prev. induction path as [|a path IH]; intros prev; simpl.
  - auto.
  - intros [Ha Hpath] Hp. split; [done|]. apply IH; [done|].
    rewrite last_cons in Hp. by destruct (last path).
Qed.

Lemma plan_inv_init self :
  plan_inv (Self.set_plan self [] [])
    (Position.x (Self.head self)) (Position.y (Self.head self)).
Proof.
  split; simpl.
  - constructor.
  - done.
  - by destruct (Self.head self).
  - intros p Hp. by apply elem_of_nil in Hp.
  - done.
Qed.

(** One accepted step keeps the invariant. *)
Lemma plan_inv_step self cx cy dx dy preferred backups fuel g next_point d g' :
  plan_inv self cx cy ->
  choose_directions dx dy = (preferred, backups) ->
  for_direction fuel self cx cy (iter_directions preferred backups) g
  = Some (Ok (Some (next_point, d)), g') ->
  plan_inv (Self.set_plan self (Self.plan self ++ [next_point])
              (Self.plan_directions self ++ [d]))
    (Position.x next_point) (Position.y next_point)
  /\ is_block self next_point = false /\ (next_point ∉ Self.plan self).
Proof.
  intros [Hnd Hadj Hcur Hopen Hlen] Hch Hfor.
  apply for_direction_accepts in Hfor as (Hnp & Hacc & Hd).
  apply choose_directions_in in Hch as (Hpre & Hbs & _).
  assert (d ∈ DIRECTIONS) as HdD.
  { destruct Hd as [Hd|Hd]; [|by apply Hbs]. simpl in Hd. by injection Hd as <-. }
  assert (is_block self next_point = false /\ (next_point ∉ Self.plan self))
    as [Hb Hnin].
  { apply accepted_true in Hacc. tauto. }
  split; [|done]. split; simpl.
  - apply NoDup_app. split_and!; [done| |apply NoDup_singleton].
    intros p Hp Hp'. apply list_elem_of_singleton in Hp' as ->. done.
  - apply steps_adjacent_snoc; [done|]. rewrite Hcur, Hnp.
    by apply distance_move.
  - rewrite last_snoc. by destruct next_point.
  - intros p Hp. apply elem_of_app in Hp as [Hp|Hp]; [by apply Hopen|].
    apply list_elem_of_singleton in Hp as ->. exact Hb.
  - rewrite !length_app. simpl. lia.
Qed.

Lemma plan_inv_length self cx cy :
  plan_inv self cx cy ->
  (List.length (Self.plan self) <= size (open_cells self))%nat.
Proof.
  intros [Hnd _ _ Hopen _]. unfold size, set_size. simpl.
  apply submseteq_length, NoDup_submseteq; [done|].
  intros p Hp. apply elem_of_elements, elem_of_open_cells. by apply Hopen.
Qed.

Lemma get_to_loop_at_target fuel self target g :
  get_to_loop fuel self target (Position.x target) (Position.y target) g
  = Some (Ok (), self, g).
Proof. destruct fuel; simpl; by rewrite !Z.eqb_refl. Qed.

Lemma get_to_loop_unfold fuel self point cx cy g :
  get_to_loop (S fuel) self point cx cy g =
  if (cx =? Position.x point) && (cy =? Position.y point) then
    Some (Ok (), self, g)
  else
    let '(preferred, backups) :=
      choose_directions (cx - Position.x point) (cy - Position.y point) in
    match for_direction (S (S (List.length backups))) self cx cy
            (iter_directions preferred backups) g with
    | None => None
    | Some (Raise e, g') => Some (Raise e, self, g')
    | Some (Ok None, g') => Some (Raise CannotContinue, self, g')
    | Some (Ok (Some (next_point, direction)), g') =>
        get_to_loop fuel
          (Self.set_plan self (Self.plan self ++ [next_point])
             (Self.plan_directions self ++ [direction]))
          point (Position.x next_point) (Position.y next_point) g'
    end.
Proof. reflexivity. Qed.

Lemma for_direction_returns self cx cy preferred backups g :
  exists o g',
    for_direction (S (S (List.length backups))) self cx cy
      (iter_directions preferred backups) g = Some (Ok o, g').
Proof. apply for_direction_enough. unfold gen_measure. simpl. lia. Qed.

(** The loop returns when its fuel exceeds the number of open cells that
    are not in the plan yet. *)
Lemma get_to_loop_enough fuel self target cx cy g :
  plan_inv self cx cy ->
  (size (open_cells self) - List.length (Self.plan self) < fuel)%nat ->
  exists res, get_to_loop fuel self target cx cy g = Some res.
Proof.
  revert self cx cy g. induction fuel as [|fuel IH]; intros self cx cy g Hinv Hf;
    [lia|].
  rewrite get_to_loop_unfold.
  destruct ((cx =? Position.x target) && (cy =? Position.y target)); [eauto|].
  destruct (choose_directions _ _) as [preferred backups] eqn:Hch.
  destruct (for_direction_returns self cx cy preferred backups g)
    as (o & g' & Hfor).
  rewrite Hfor. destruct o as [[next_point d]|]; [|eauto].
  destruct (plan_inv_step _ _ _ _ _ _ _ _ _ _ _ _ Hinv Hch Hfor) as (Hinv' & _).
  apply IH; [done|].
  apply plan_inv_length in Hinv'.
  change (open_cells (Self.set_plan self _ _)) with (open_cells self) in *.
  cbn [Self.plan Self.set_plan] in *. rewrite length_app in *. simpl in *. lia.
Qed.

(** What the loop leaves: the invariant, the plan extended, nothing else
    of [self] changed, and no exception but [CannotContinue]. *)
Lemma get_to_loop_inv fuel self target cx cy g r self' g' :
  get_to_loop fuel self target cx cy g = Some (r, self', g') ->
  plan_inv self cx cy ->
  (exists cx' cy', plan_inv self' cx' cy'
                   /\ (r = Ok () -> Position.mk cx' cy' = target))
  /\ self' = Self.set_plan self (Self.plan self') (Self.plan_directions self')
  /\ (r = Ok () \/ r = Raise CannotContinue)
  /\ (exists ext, Self.plan self' = Self.plan self ++ ext).
Proof.
  revert self cx cy g.
  induction fuel as [|fuel IH]; intros self cx cy g H Hinv.
  - simpl in H.
    destruct ((cx =? Position.x target) && (cy =? Position.y target)) eqn:Hat;
      [|discriminate].
    injection H as <- <- <-. apply andb_prop in Hat as [Hx Hy].
    apply Z.eqb_eq in Hx, Hy. split_and!.
    + exists cx, cy. split; [done|]. intros _. destruct target. simpl in *.
      congruence.
    + by destruct self.
    + by left.
    + exists []. by rewrite app_nil_r.
  - rewrite get_to_loop_unfold in H.
    destruct ((cx =? Position.x target) && (cy =? Position.y target)) eqn:Hat.
    + injection H as <- <- <-. apply andb_prop in Hat as [Hx Hy].
      apply Z.eqb_eq in Hx, Hy. split_and!.
      * exists cx, cy. split; [done|]. intros _. destruct target. simpl in *.
        congruence.
      * by destruct self.
      * by left.
      * exists []. by rewrite app_nil_r.
    + destruct (choose_directions _ _) as [preferred backups] eqn:Hch.
      destruct (for_direction_returns self cx cy preferred backups g)
        as (o & g1 & Hfor).
      rewrite Hfor in H. destruct o as [[next_point d]|].
      * destruct (plan_inv_step _ _ _ _ _ _ _ _ _ _ _ _ Hinv Hch Hfor)
          as (Hinv' & _).
        destruct (IH _ _ _ _ H Hinv') as (Hres & Hself & Hr & [ext Hext]).
        split_and!; [done| |done|].
        -- rewrite Hself. by destruct self.
        -- exists (next_point :: ext). rewrite Hext. simpl.
           by rewrite <- app_assoc.
      * injection H as <- <- <-. split_and!.
        -- exists cx, cy. split; [done|discriminate].
        -- by destruct self.
        -- by right.
        -- exists []. by rewrite app_nil_r.
Qed.

Lemma get_to_loop_mono fuel fuel' self target cx cy g res :
  get_to_loop fuel self target cx cy g = Some res -> (fuel <= fuel')%nat ->
  get_to_loop fuel' self target cx cy g = Some res.
Proof.
  revert fuel' self cx cy g.
  induction fuel as [|fuel IH]; intros fuel' self cx cy g H Hle.
  - simpl in H.
    destruct ((cx =? Position.x target) && (cy =? Position.y target)) eqn:Hat;
      [|discriminate].
    destruct fuel'; simpl; by rewrite Hat.
  - destruct fuel' as [|fuel']; [lia|].
    rewrite get_to_loop_unfold in *.
    destruct ((cx =? Position.x target) && (cy =? Position.y target)); [done|].
    destruct (choose_directions _ _) as [preferred backups].
    destruct (for_direction _ _ _ _ _ _) as [[[[[np d]|]|e] g1]|]; try done.
    apply IH; [done|lia].
Qed.

Lemma get_to_loop_length fuel self target cx cy g r self' g' :
  get_to_loop fuel self target cx cy g = Some (r, self', g') ->
  (List.length (Self.plan self) <= List.length (Self.plan self'))%nat.
Proof.
  revert self cx cy g. induction fuel as [|fuel IH]; intros self cx cy g H.
  - simpl in H. destruct (_ && _); [|discriminate].
    by injection H as <- <- <-.
  - rewrite get_to_loop_unfold in H. destruct (_ && _).
    { by injection H as <- <- <-. }
    destruct (choose_directions _ _) as [p b].
    destruct (for_direction _ _ _ _ _ _) as [[[[[np d]|]|e] g1]|];
      try discriminate.
    + apply IH in H. cbn [Self.plan Self.set_plan] in H.
      rewrite length_app in H. simpl in H. lia.
    + by injection H as <- <- <-.
    + by injection H as <- <- <-.
Qed.

(** The loop body ran once for each point appended, and once more when
    the run ended by raising. *)
Lemma get_to_loop_iterations fuel self target cx cy g r self' g' :
  get_to_loop fuel self target cx cy g = Some (r, self', g') ->
  get_to_loop
    (iterations (List.length (Self.plan self') - List.length (Self.plan self)) r)
    self target cx cy g = Some (r, self', g').
Proof.
  revert self cx cy g.
  induction fuel as [|fuel IH]; intros self cx cy g H.
  - simpl in H.
    destruct ((cx =? Position.x target) && (cy =? Position.y target)) eqn:Hat;
      [|discriminate].
    injection H as <- <- <-. rewrite Nat.sub_diag. simpl. by rewrite Hat.
  - rewrite get_to_loop_unfold in H.
    destruct ((cx =? Position.x target) && (cy =? Position.y target)) eqn:Hat.
    { injection H as <- <- <-. rewrite Nat.sub_diag. simpl. by rewrite Hat. }
    destruct (choose_directions _ _) as [preferred backups] eqn:Hch.
    destruct (for_direction _ _ _ _ _ _) as [[[[[np d]|]|e] g1]|] eqn:Hfor;
      try discriminate.
    + pose proof (IH _ _ _ _ H) as IH'.
      cbn [Self.plan Self.set_plan] in IH'. rewrite length_app in IH'.
      simpl in IH'.
      pose proof (get_to_loop_length _ _ _ _ _ _ _ _ _ H) as Hk.
      cbn [Self.plan Self.set_plan] in Hk. rewrite length_app in Hk.
      simpl in Hk.
      replace (iterations (List.length (Self.plan self')
                           - List.length (Self.plan self)) r)
        with (S (iterations (List.length (Self.plan self')
                             - (List.length (Self.plan self) + 1)) r)).
      2:{ destruct r; simpl; lia. }
      rewrite get_to_loop_unfold, Hat, Hch, Hfor. exact IH'.
    + injection H as <- <- <-. rewrite Nat.sub_diag.
      change (iterations 0 (Raise CannotContinue)) with 1%nat.
      by rewrite get_to_loop_unfold, Hat, Hch, Hfor.
    + injection H as <- <- <-. rewrite Nat.sub_diag.
      change (iterations 0 (Raise e)) with 1%nat.
      by rewrite get_to_loop_unfold, Hat, Hch, Hfor.
Qed.

(** A run that raises has not stepped onto the target. *)
Lemma get_to_loop_raise_target fuel self target cx cy g e self' g' :
  get_to_loop fuel self target cx cy g = Some (Raise e, self', g') ->
  (target ∉ Self.plan self) -> target ∉ Self.plan self'.
Proof.
  revert self cx cy g.
  induction fuel as [|fuel IH]; intros self cx cy g H Hnin.
  - simpl in H. destruct (_ && _); discriminate.
  - rewrite get_to_loop_unfold in H. destruct (_ && _); [discriminate|].
    destruct (choose_directions _ _) as [preferred backups].
    destruct (for_direction _ _ _ _ _ _) as [[[[[np d]|]|e1] g1]|];
      try discriminate.
    + destruct (decide (np = target)) as [->|Hne].
      { by rewrite get_to_loop_at_target in H. }
      apply IH in H; [done|]. cbn [Self.plan Self.set_plan].
      rewrite elem_of_app, list_elem_of_singleton. naive_solver.
    + by injection H as <- <- <-.
    + by injection H as <- <- <-.
Qed.

Lemma get_to_fuel_enough self :
  (size (open_cells (Self.set_plan self [] []))
   - List.length (Self.plan (Self.set_plan self [] []))
   < get_to_fuel (Self.world self))%nat.
Proof.
  pose proof (size_open_cells self).
  change (open_cells (Self.set_plan self [] [])) with (open_cells self).
  unfold get_to_fuel. simpl. lia.
Qed.

(** [get_to] is its loop run with enough fuel. *)
Lemma get_to_eq self target g :
  get_to_loop (get_to_fuel (Self.world self)) (Self.set_plan self [] []) target
    (Position.x (Self.head self)) (Position.y (Self.head self)) g
  = Some (get_to self target g).
Proof.
  unfold get_to.
  destruct (get_to_loop_enough (get_to_fuel (Self.world self))
              (Self.set_plan self [] []) target
              (Position.x (Self.head self)) (Position.y (Self.head self)) g
              (plan_inv_init self) (get_to_fuel_enough self)) as [res ->].
  done.
Qed.

(** With enough fuel, the loop of [get_to] returns what [get_to]
    returns. *)
Lemma get_to_loop_fuel self target g fuel :
  (get_to_fuel (Self.world self) <= fuel)%nat ->
  get_to_loop fuel (Self.set_plan self [] []) target
    (Position.x (Self.head self)) (Position.y (Self.head self)) g
  = Some (get_to self target g).
Proof. intros Hle. eapply get_to_loop_mono; [apply get_to_eq|done]. Qed.

(** What [get_to] leaves. *)
Lemma get_to_inv self target g r self' g' :
  get_to self target g = (r, self', g') ->
  (exists cx cy, plan_inv self' cx cy /\ (r = Ok () -> Position.mk cx cy = target))
  /\ self' = Self.set_plan self (Self.plan self') (Self.plan_directions self')
  /\ (r = Ok () \/ r = Raise CannotContinue).
Proof.
  intros H. pose proof (get_to_eq self target g) as Heq. rewrite H in Heq.
  destruct (get_to_loop_inv _ _ _ _ _ _ _ _ _ Heq (plan_inv_init self))
    as (Hinv & Hself & Hr & _).
  split_and!; [done| |done]. rewrite Hself at 1. by destruct self.
Qed.

(** ** C1: the plan is a simple path of adjacent cells *)

(** C1.  When [get_to] returns without raising, the plan it leaves holds
    no coordinate twice, and each of its coordinates is at Manhattan
    distance exactly 1 from the one before it, the first from the head. *)
Theorem get_to_plan_simple_path (self : Self.t) (target : Position) (g : Rng)
    (self' : Self.t) (g' : Rng) :
  get_to self target g = (Ok (), self', g') ->
  NoDup (Self.plan self')
  /\ steps_adjacent (Self.head self) (Self.plan self').
Proof.
  intros H. apply get_to_inv in H as ((cx & cy & Hinv & _) & Hself & _).
  destruct Hinv as [Hnd Hadj _ _ _]. split; [done|].
  rewrite Hself in Hadj. exact Hadj.
Qed.

Lemma get_to_plan_simple_path_witness :
  NoDup (Self.plan (get_to scenario_snapshot (Position.mk 5 2) []).1.2)
  /\ steps_adjacent (Self.head scenario_snapshot)
       (Self.plan (get_to scenario_snapshot (Position.mk 5 2) []).1.2).
Proof.
  apply (get_to_plan_simple_path scenario_snapshot (Position.mk 5 2) []
           (get_to scenario_snapshot (Position.mk 5 2) []).1.2 []).
  vm_compute. reflexivity.
Defined.

(** ** C5: the directions when only x differs *)

(** C5, as amended.  When the current position differs from the target
    only on the x axis ([dy = 0], [dx <> 0]), the preferred direction is
    the horizontal one toward the target and the backup set is the two
    vertical directions, up and down. *)
Theorem choose_directions_same_row (dx : Z) :
  dx <> 0 ->
  choose_directions dx 0
  = (if dx >? 0 then LEFT else RIGHT, [UP; DOWN]).
Proof.
  intros Hdx. unfold choose_directions.
  destruct (Z.eqb_spec dx 0); [done|]. reflexivity.
Qed.

Lemma choose_directions_same_row_witness :
  choose_directions 3 0 = (LEFT, [UP; DOWN]).
Proof. apply (choose_directions_same_row 3). lia. Defined.

(** Counterexample to C5 as the claim states it: one cell to the right
    of the target ([dx = 1], [dy = 0]) the backup set has two directions,
    not one. *)
Lemma choose_directions_same_row_two_backups :
  (choose_directions 1 0).1 = LEFT
  /\ (choose_directions 1 0).2 = [UP; DOWN]
  /\ ~ (exists d, (choose_directions 1 0).2 = [d]).
Proof.
  split_and!; [reflexivity..|]. intros [d Hd]. vm_compute in Hd. discriminate.
Qed.

(** ** C10: [get_to] terminates *)

Lemma plan_inv_bounds self cx cy target :
  plan_inv self cx cy ->
  (List.length (Self.plan self)
   <= Z.to_nat (World.SIZE_X (Self.world self))
      * Z.to_nat (World.SIZE_Y (Self.world self)))%nat
  /\ (in_bounds (Self.world self) target -> (target ∉ Self.plan self) ->
      (S (List.length (Self.plan self))
       <= Z.to_nat (World.SIZE_X (Self.world self))
          * Z.to_nat (World.SIZE_Y (Self.world self)))%nat).
Proof.
  intros Hinv. split.
  - pose proof (plan_inv_length _ _ _ Hinv). pose proof (size_open_cells self).
    lia.
  - intros Hin Hnin. rewrite <- length_grid_positions.
    change (S (List.length (Self.plan self)))
      with (List.length (target :: Self.plan self)).
    apply submseteq_length, NoDup_submseteq.
    + constructor; [done|apply (plan_nodup _ _ _ Hinv)].
    + intros p Hp. apply elem_of_grid_positions.
      apply elem_of_cons in Hp as [->|Hp]; [done|].
      by apply is_block_false_in_bounds, (plan_open _ _ _ Hinv).
Qed.

(** One execution of the loop body, away from the target: it raises
    [CannotContinue], leaving the plan as it is, or appends a point that is
    inside the grid and not in the plan, and goes on from that point. *)
Lemma get_to_loop_body fuel self target cx cy g :
  (cx =? Position.x target) && (cy =? Position.y target) = false ->
  (exists g',
     get_to_loop (S fuel) self target cx cy g
     = Some (Raise CannotContinue, self, g'))
  \/ (exists next_point d g',
        in_bounds (Self.world self) next_point
        /\ (next_point ∉ Self.plan self)
        /\ get_to_loop (S fuel) self target cx cy g
           = get_to_loop fuel
               (Self.set_plan self (Self.plan self ++ [next_point])
                  (Self.plan_directions self ++ [d]))
               target (Position.x next_point) (Position.y next_point) g').
Proof.
  intros Hat. rewrite get_to_loop_unfold, Hat.
  destruct (choose_directions _ _) as [preferred backups].
  destruct (for_direction_returns self cx cy preferred backups g)
    as (o & g' & Hfor).
  rewrite Hfor. destruct o as [[next_point d]|]; [right|left; eauto].
  apply for_direction_accepts in Hfor as (_ & Hacc & _).
  exists next_point, d, g'. split_and!; [| |done].
  - apply (is_block_false_in_bounds self). apply accepted_true in Hacc. tauto.
  - apply accepted_true in Hacc. tauto.
Qed.

(** C10.  [get_to] terminates for every snapshot and target.  Each
    execution of the loop body raises [CannotContinue] or appends to the
    plan a point that is inside the grid and not in the plan.  So the run
    returns or raises [CannotContinue], the plan it leaves holds distinct
    points of the grid, and at most width x height iterations appended a
    point.  The loop body ran once for each of them and once more if the
    run ended by raising: at most width x height + 1 times, and at most
    width x height times when the run reached the target or the target is
    a cell of the grid. *)
Theorem get_to_terminates (self : Self.t) (target : Position) (g : Rng) :
  let w := Self.world self in
  let cells := (Z.to_nat (World.SIZE_X w) * Z.to_nat (World.SIZE_Y w))%nat in
  let start := Self.set_plan self [] [] in
  let cx := Position.x (Self.head self) in
  let cy := Position.y (Self.head self) in
  (forall fuel s x y g0,
     (x =? Position.x target) && (y =? Position.y target) = false ->
     (exists g1,
        get_to_loop (S fuel) s target x y g0
        = Some (Raise CannotContinue, s, g1))
     \/ (exists next_point d g1,
           in_bounds (Self.world s) next_point
           /\ (next_point ∉ Self.plan s)
           /\ get_to_loop (S fuel) s target x y g0
              = get_to_loop fuel
                  (Self.set_plan s (Self.plan s ++ [next_point])
                     (Self.plan_directions s ++ [d]))
                  target (Position.x next_point) (Position.y next_point) g1))
  /\ exists r self' g',
       get_to self target g = (r, self', g')
       /\ (r = Ok () \/ r = Raise CannotContinue)
       /\ NoDup (Self.plan self')
       /\ (forall p, p ∈ Self.plan self' -> in_bounds w p)
       /\ (List.length (Self.plan self') <= cells)%nat
       /\ get_to_loop (iterations (List.length (Self.plan self')) r)
            start target cx cy g = Some (r, self', g')
       /\ (iterations (List.length (Self.plan self')) r <= S cells)%nat
       /\ (r = Ok () \/ in_bounds w target ->
           (iterations (List.length (Self.plan self')) r <= cells)%nat).
Proof.
  intros w cells start cx cy. split; [intros; by apply get_to_loop_body|].
  destruct (get_to self target g) as [[r self'] g'] eqn:Hget.
  exists r, self', g'. split; [done|].
  pose proof (get_to_eq self target g) as Hloop. rewrite Hget in Hloop.
  fold start cx cy w in Hloop.
  destruct (get_to_inv _ _ _ _ _ _ Hget) as ((x & y & Hinv & _) & Hself & Hr).
  assert (Self.world self' = w) as Hw by (rewrite Hself; done).
  destruct (plan_inv_bounds _ _ _ target Hinv) as [Hlen Hlen'].
  rewrite Hw in Hlen, Hlen'. fold cells in Hlen, Hlen'.
  split_and!.
  - done.
  - apply (plan_nodup _ _ _ Hinv).
  - intros p Hp. rewrite <- Hw.
    by apply is_block_false_in_bounds, (plan_open _ _ _ Hinv).
  - done.
  - apply get_to_loop_iterations in Hloop. simpl in Hloop.
    by rewrite Nat.sub_0_r in Hloop.
  - destruct r; simpl; lia.
  - intros Hcase. destruct r as [[]|e]; simpl; [lia|].
    destruct Hcase as [?|Hin]; [done|]. apply Hlen'; [done|].
    eapply get_to_loop_raise_target; [exact Hloop|]. simpl.
    apply not_elem_of_nil.
Qed.

Lemma get_to_terminates_witness :
  exists r self' g',
    get_to scenario_snapshot (Position.mk 5 2) [] = (r, self', g')
    /\ (iterations (List.length (Self.plan self')) r <= 100)%nat.
Proof.
  destruct (get_to_terminates scenario_snapshot (Position.mk 5 2) [])
    as (_ & r & self' & g' & Hget & _ & _ & _ & _ & _ & _ & Hle).
  exists r, self', g'. split; [exact Hget|]. apply Hle. right.
  vm_compute. intuition discriminate.
Defined.

(** The bound of width x height + 1 executions of the loop body is
    reached when the target lies outside the grid and the plan runs over
    every cell: on the grid of two open cells, toward (3,0), two
    iterations append (0,1) and (0,0) and the third raises. *)
Example get_to_loop_column :
  let self := get_position column_robot in
  let target := Position.mk 3 0 in
  (exists self',
     get_to self target [] = (Raise CannotContinue, self', [])
     /\ Self.plan self' = [Position.mk 0 1; Position.mk 0 0])
  /\ get_to_loop 2 (Self.set_plan self [] []) target 0 0 [] = None
  /\ ~ in_bounds (Self.world self) target.
Proof.
  split_and!.
  - eexists. split; [vm_compute; reflexivity|reflexivity].
  - vm_compute. reflexivity.
  - vm_compute. intuition discriminate.
Qed.

(** ** Python's [max] *)

Lemma Qgt_bool_true a b : Qgt_bool a b = true -> (b <= a)%Q.
Proof.
  unfold Qgt_bool. intros H. apply negb_true_iff in H.
  apply Qlt_le_weak, Qnot_le_lt. intros Hle. apply Qle_bool_iff in Hle.
  congruence.
Qed.

Lemma Qgt_bool_false a b : Qgt_bool a b = false -> (a <= b)%Q.
Proof.
  unfold Qgt_bool. intros H. apply negb_false_iff in H.
  by apply Qle_bool_iff.
Qed.

Lemma tuple_gt_true {B : Type} (gtB : B -> B -> bool) (a b : Q * B) :
  tuple_gt gtB a b = true -> (b.1 <= a.1)%Q.
Proof.
  unfold tuple_gt. destruct (Qeq_bool a.1 b.1) eqn:E.
  - intros _. apply Qeq_bool_iff in E. rewrite E. apply Qle_refl.
  - apply Qgt_bool_true.
Qed.

Lemma tuple_gt_false {B : Type} (gtB : B -> B -> bool) (a b : Q * B) :
  tuple_gt gtB a b = false -> (a.1 <= b.1)%Q.
Proof.
  unfold tuple_gt. destruct (Qeq_bool a.1 b.1) eqn:E.
  - intros _. apply Qeq_bool_iff in E. rewrite E. apply Qle_refl.
  - apply Qgt_bool_false.
Qed.

(** [max] of a list of tuples returns one of them whose first component
    is the greatest. *)
Lemma py_max_tuple {B : Type} (gtB : B -> B -> bool) (l : list (Q * B)) :
  match py_max (tuple_gt gtB) l with
  | Ok m => m ∈ l /\ forall a, a ∈ l -> (a.1 <= m.1)%Q
  | Raise e => e = ValueError /\ l = []
  end.
Proof.
  destruct l as [|a0 rest]; simpl; [done|].
  assert (forall seen best,
             best ∈ seen -> (forall a, a ∈ seen -> (a.1 <= best.1)%Q) ->
             let m := fold_left
                        (fun best item =>
                           if tuple_gt gtB item best then item else best)
                        rest best in
             m ∈ seen ++ rest
             /\ forall a, a ∈ seen ++ rest -> (a.1 <= m.1)%Q) as Hfold.
  { induction rest as [|item rest IH]; intros seen best Hin Hmax; simpl.
    - by rewrite app_nil_r.
    - replace (seen ++ item :: rest) with ((seen ++ [item]) ++ rest)
        by (by rewrite <- app_assoc).
      apply IH.
      + destruct (tuple_gt gtB item best); set_solver.
      + intros a Ha. apply elem_of_app in Ha as [Ha|Ha].
        * destruct (tuple_gt gtB item best) eqn:E; [|by apply Hmax].
          eapply Qle_trans; [by apply Hmax|]. by eapply tuple_gt_true.
        * apply list_elem_of_singleton in Ha as ->.
          destruct (tuple_gt gtB item best) eqn:E; [apply Qle_refl|].
          by eapply tuple_gt_false. }
  apply (Hfold [a0] a0).
  - by apply list_elem_of_singleton.
  - intros a Ha. apply list_elem_of_singleton in Ha as ->. apply Qle_refl.
Qed.

(** ** C3: the target selector *)

Lemma elem_of_candidates self cells q p :
  (q, p) ∈ candidates self cells <->
  p ∈ cells
  /\ exists d,
       (World.cell (Self.world self) (Position.y p) (Position.x p)).1 = CH_DIGIT d
       /\ q = score self p d.
Proof.
  unfold candidates. rewrite list_elem_of_bind. split.
  - intros (p' & Hin & Hp').
    destruct (World.cell _ _ _).1 as [| | | | | |d] eqn:E;
      try (by apply elem_of_nil in Hin).
    apply list_elem_of_singleton in Hin. injection Hin as -> ->. eauto.
  - intros (Hp & d & Hd & ->). exists p. split; [|done].
    rewrite Hd. by apply list_elem_of_singleton.
Qed.

Lemma candidates_cons self p cells :
  candidates self (p :: cells)
  = match (World.cell (Self.world self) (Position.y p) (Position.x p)).1 with
    | CH_DIGIT d => [(score self p d, p)]
    | _ => []
    end ++ candidates self cells.
Proof. reflexivity. Qed.

(** The scan builds the candidates when no digit lies under the head. *)
Lemma find_best_scan_ok self cells points :
  (forall p d, p ∈ cells ->
     (World.cell (Self.world self) (Position.y p) (Position.x p)).1 = CH_DIGIT d ->
     distance (Self.head self) p <> 0) ->
  find_best_scan self cells points = Ok (points ++ candidates self cells).
Proof.
  revert points. induction cells as [|p cells IH]; intros points Hd.
  - simpl. by rewrite app_nil_r.
  - assert (forall q d, q ∈ cells ->
              (World.cell (Self.world self) (Position.y q) (Position.x q)).1
              = CH_DIGIT d -> distance (Self.head self) q <> 0) as Hd'.
    { intros q d Hq. apply Hd. by right. }
    rewrite candidates_cons. cbn [find_best_scan].
    destruct (World.cell _ _ _) as [char color] eqn:E. cbn [fst].
    destruct char; try (by rewrite IH).
    unfold compute_score, truediv.
    destruct (Z.eqb_spec (distance (Self.head self) p) 0) as [Hz|Hnz].
    + exfalso. eapply Hd; [by left| |exact Hz]. by rewrite E.
    + simpl. rewrite IH by done. by rewrite <- app_assoc.
Qed.

(** The scan raises [ZeroDivisionError] when a digit lies under the
    head. *)
Lemma find_best_scan_raise self cells points p d :
  p ∈ cells ->
  (World.cell (Self.world self) (Position.y p) (Position.x p)).1 = CH_DIGIT d ->
  distance (Self.head self) p = 0 ->
  find_best_scan self cells points = Raise ZeroDivisionError.
Proof.
  revert points. induction cells as [|c cells IH]; intros points Hin Hd Hz.
  - by apply elem_of_nil in Hin.
  - simpl. destruct (World.cell _ (Position.y c) _) as [char color] eqn:E.
    destruct (decide (c = p)) as [->|Hne].
    + rewrite E in Hd. simpl in Hd. subst char.
      unfold compute_score, truediv. rewrite Hz. done.
    + apply elem_of_cons in Hin as [->|Hin]; [done|].
      destruct char; try (by apply IH).
      unfold compute_score, truediv.
      destruct (_ =? 0); [done|]. simpl. by apply IH.
Qed.

(** C3.  In a snapshot where every digit cell lies at Manhattan distance
    at least 1 from the head, [find_best] returns; a coordinate it
    returns is a digit cell whose score, digit value over distance, is
    the greatest among the digit cells; it returns none exactly when the
    world has no digit cell; and when the digit cells are a '3' at
    distance 1 and a '9' at distance 5 it returns the cell of the '3'. *)
Theorem find_best_greatest_score (self : Self.t) :
  (forall p d, digit_at self p d -> 1 <= distance (Self.head self) p) ->
  exists res,
    find_best self = Ok res
    /\ (forall best, res = Some best ->
          exists d, digit_at self best d
                    /\ forall p' d', digit_at self p' d' ->
                                     (score self p' d' <= score self best d)%Q)
    /\ (res = None <-> forall p d, ~ digit_at self p d)
    /\ (forall p3 p9,
          digit_at self p3 D3 -> distance (Self.head self) p3 = 1 ->
          digit_at self p9 D9 -> distance (Self.head self) p9 = 5 ->
          (forall p d, digit_at self p d -> p = p3 \/ p = p9) ->
          res = Some p3).
Proof.
  intros Hdist. unfold find_best.
  rewrite find_best_scan_ok.
  2:{ intros p d Hp Hd. apply elem_of_grid_positions in Hp.
      pose proof (Hdist p d (conj Hp Hd)). lia. }
  simpl.
  set (points := candidates self (grid_positions (Self.world self))).
  assert (forall q p, (q, p) ∈ points <-> exists d, digit_at self p d /\ q = score self p d)
    as Hpoints.
  { intros q p. unfold points, digit_at.
    rewrite elem_of_candidates, elem_of_grid_positions. naive_solver. }
  assert (forall best,
             best ∈ points -> (forall a, a ∈ points -> (a.1 <= best.1)%Q) ->
             exists d, digit_at self best.2 d
                       /\ forall p' d', digit_at self p' d' ->
                                        (score self p' d' <= score self best.2 d)%Q)
    as Hbest.
  { intros [q p] Hin Hmax. apply Hpoints in Hin as (d & Hd & ->).
    exists d. split; [done|]. intros p' d' Hd'.
    apply (Hmax (score self p' d', p')), Hpoints. eauto. }
  pose proof (py_max_tuple Position_gt points) as Hmax.
  destruct (py_max (tuple_gt Position_gt) points) as [best|e].
  - destruct Hmax as [Hin Hmax]. eexists. split; [done|]. split_and!.
    + intros ? [= <-]. by apply Hbest.
    + split; [done|]. intros Hnone. exfalso. destruct best as [q p].
      apply Hpoints in Hin as (d & Hd & _). by apply (Hnone p d).
    + intros p3 p9 H3 Hd3 H9 Hd9 Honly. f_equal.
      destruct (Hbest best Hin Hmax) as (d & Hd & Hge).
      destruct (Honly _ _ Hd) as [->|Heq]; [done|]. exfalso.
      rewrite Heq in Hd, Hge.
      assert (d = D9) as ->.
      { destruct Hd as [_ Hd], H9 as [_ H9]. congruence. }
      specialize (Hge p3 D3 H3). unfold score in Hge.
      rewrite Hd3, Hd9 in Hge. revert Hge. vm_compute. auto.
  - destruct Hmax as [-> Hnil]. exists None. split_and!; [done|done| |].
    + split; [|done]. intros _ p d Hd.
      assert ((score self p d, p) ∈ points) as Hin by (apply Hpoints; eauto).
      rewrite Hnil in Hin. by apply elem_of_nil in Hin.
    + intros p3 p9 H3 _ _ _ _. exfalso.
      assert ((score self p3 D3, p3) ∈ points) as Hin by (apply Hpoints; eauto).
      rewrite Hnil in Hin. by apply elem_of_nil in Hin.
Qed.

Lemma two_rewards_digits p d :
  digit_at two_rewards_snapshot p d ->
  p = Position.mk 5 4 /\ d = D3 \/ p = Position.mk 5 0 /\ d = D9.
Proof.
  destruct p as [x y]. intros [_ Hd]. revert Hd.
  change (Self.world two_rewards_snapshot) with two_rewards_world. simpl.
  destruct (Z.eqb_spec x 5) as [->|]; simpl.
  - destruct (Z.eqb_spec y 5); [discriminate|].
    destruct (Z.eqb_spec y 4) as [->|]; [intros [= <-]; auto|].
    destruct (Z.eqb_spec y 0) as [->|]; [intros [= <-]; auto|discriminate].
  - discriminate.
Qed.

Lemma find_best_greatest_score_witness :
  exists res,
    find_best two_rewards_snapshot = Ok res
    /\ (forall best, res = Some best ->
          exists d, digit_at two_rewards_snapshot best d
                    /\ forall p' d', digit_at two_rewards_snapshot p' d' ->
                                     (score two_rewards_snapshot p' d'
                                      <= score two_rewards_snapshot best d)%Q)
    /\ (res = None <-> forall p d, ~ digit_at two_rewards_snapshot p d)
    /\ (forall p3 p9,
          digit_at two_rewards_snapshot p3 D3 ->
          distance (Self.head two_rewards_snapshot) p3 = 1 ->
          digit_at two_rewards_snapshot p9 D9 ->
          distance (Self.head two_rewards_snapshot) p9 = 5 ->
          (forall p d, digit_at two_rewards_snapshot p d -> p = p3 \/ p = p9) ->
          res = Some p3).
Proof.
  apply (find_best_greatest_score two_rewards_snapshot).
  intros p d Hd.
  destruct (two_rewards_digits p d Hd) as [[-> _]|[-> _]]; vm_compute;
    discriminate.
Defined.

(** ** [random.shuffle] keeps the elements *)

Lemma elem_of_swap {A : Type} (l : list A) (i j : nat) (x : A) :
  x ∈ swap l i j <-> x ∈ l.
Proof.
  unfold swap. destruct (l !! i) as [a|] eqn:Ei; [|done].
  destruct (l !! j) as [b|] eqn:Ej; [|done].
  pose proof (lookup_lt_Some _ _ _ Ei) as Hi.
  pose proof (lookup_lt_Some _ _ _ Ej) as Hj.
  rewrite !list_elem_of_lookup. split.
  - intros [k Hk]. apply list_lookup_insert_Some in Hk as [(<- & <- & _)|[Hne Hk]];
      [eauto|].
    apply list_lookup_insert_Some in Hk as [(<- & <- & _)|[Hne' Hk]]; eauto.
  - intros [k Hk]. destruct (decide (k = i)) as [->|Hki].
    + assert (x = a) as -> by congruence.
      destruct (decide (i = j)) as [->|Hij].
      * exists j. assert (a = b) as -> by congruence.
        apply list_lookup_insert_eq. by rewrite length_insert.
      * exists j. rewrite list_lookup_insert_ne by done.
        by apply list_lookup_insert_eq.
    + destruct (decide (k = j)) as [->|Hkj].
      * assert (x = b) as -> by congruence. exists i.
        apply list_lookup_insert_eq. by rewrite length_insert.
      * exists k. by rewrite !list_lookup_insert_ne.
Qed.

Lemma elem_of_shuffle_loop {A : Type} (i : nat) (l : list A) (g : Rng) (x : A) :
  x ∈ (shuffle_loop i l g).1 <-> x ∈ l.
Proof.
  revert l g. induction i as [|i IH]; intros l g; simpl; [done|].
  destruct (randbelow (S (S i)) g) as [j g'] eqn:E.
  unfold randbelow in E. destruct (draw g) as [k g1].
  injection E as <- <-. rewrite IH. apply elem_of_swap.
Qed.

Lemma elem_of_random_shuffle {A : Type} (l : list A) (g : Rng) (x : A) :
  x ∈ (random_shuffle l g).1 <-> x ∈ l.
Proof. apply elem_of_shuffle_loop. Qed.

(** ** C4: the fallback maneuver *)

(** The loop of [backup] over any list of directions: it raises nothing;
    it returns early only with an open neighbour of fraction 1.0;
    otherwise [unblocked] gains exactly the open neighbours, each with its
    fraction, none of which is 1.0. *)
Lemma backup_loop_spec self directions unblocked :
  match backup_loop self directions unblocked with
  | Raise e => False
  | Ok (inl d) =>
      d ∈ directions /\ is_block self (move (Self.head self) d) = false
      /\ exists q, free_room self (move (Self.head self) d) = Ok q /\ (q == 1)%Q
  | Ok (inr ub) =>
      (forall d, d ∈ directions ->
         is_block self (move (Self.head self) d) = true
         \/ exists q, free_room self (move (Self.head self) d) = Ok q
                      /\ ~ (q == 1)%Q /\ (q, d) ∈ ub)
      /\ (forall a, a ∈ ub ->
            a ∈ unblocked
            \/ a.2 ∈ directions
               /\ is_block self (move (Self.head self) a.2) = false
               /\ free_room self (move (Self.head self) a.2) = Ok a.1)
      /\ (forall a, a ∈ unblocked -> a ∈ ub)
  end.
Proof.
  revert unblocked. induction directions as [|d directions IH];
    intros unblocked; simpl.
  - split_and!; [set_solver|auto|auto].
  - destruct (is_block self (move (Self.head self) d)) eqn:Hb; simpl.
    + specialize (IH unblocked).
      destruct (backup_loop self directions unblocked) as [[d'|ub]|e];
        [|  |done].
      * destruct IH as (Hin & H). split; [by right|done].
      * destruct IH as (Hdirs & Hub & Hacc). split_and!; [| |done].
        -- intros d' Hd'. apply elem_of_cons in Hd' as [->|Hd']; [by left|].
           by apply Hdirs.
        -- intros a Ha. destruct (Hub a Ha) as [?|(? & ? & ?)]; [by left|].
           right. split_and!; [by right|done|done].
    + destruct (free_room_open_ok _ _ Hb) as [q Hq]. rewrite Hq. simpl.
      destruct (Qeq_bool q 1) eqn:Hq1.
      * split_and!; [by left|done|]. exists q. split; [done|].
        by apply Qeq_bool_iff.
      * assert (~ (q == 1)%Q) as Hne.
        { intros Heq. apply Qeq_bool_iff in Heq. congruence. }
        specialize (IH (unblocked ++ [(q, d)])).
        destruct (backup_loop self directions (unblocked ++ [(q, d)]))
          as [[d'|ub]|e]; [|  |done].
        -- destruct IH as (Hin & H). split; [by right|done].
        -- destruct IH as (Hdirs & Hub & Hacc). split_and!.
           ++ intros d' Hd'. apply elem_of_cons in Hd' as [->|Hd'].
              ** right. exists q. split_and!; [done..|].
                 apply Hacc. set_solver.
              ** by apply Hdirs.
           ++ intros a Ha. destruct (Hub a Ha) as [Hin|(? & ? & ?)].
              ** apply elem_of_app in Hin as [?|Hin]; [by left|].
                 apply list_elem_of_singleton in Hin as ->. right. simpl.
                 split_and!; [by left|done|done].
              ** right. split_and!; [by right|done|done].
           ++ intros a Ha. apply Hacc. set_solver.
Qed.

(** What [backup] returns, whatever the length of the agent. *)
Lemma backup_spec (self : Self.t) (g : Rng) :
  let neighbor d := move (Self.head self) d in
  let full d :=
    is_block self (neighbor d) = false
    /\ exists q, free_room self (neighbor d) = Ok q /\ (q == 1)%Q in
  exists res g',
    backup self g = (Ok res, g')
    /\ (res = None <->
        forall d, d ∈ DIRECTIONS -> is_block self (neighbor d) = true)
    /\ (forall d, res = Some d ->
          d ∈ DIRECTIONS /\ is_block self (neighbor d) = false)
    /\ ((exists d0, d0 ∈ DIRECTIONS /\ full d0) ->
        exists d, res = Some d /\ full d)
    /\ (~ (exists d0, d0 ∈ DIRECTIONS /\ full d0) ->
        forall d, res = Some d ->
          exists q, free_room self (neighbor d) = Ok q
                    /\ forall d', d' ∈ DIRECTIONS ->
                         is_block self (neighbor d') = false ->
                         exists q', free_room self (neighbor d') = Ok q'
                                    /\ (q' <= q)%Q).
Proof.
  intros neighbor full. unfold backup.
  destruct (random_shuffle DIRECTIONS g) as [directions g'] eqn:Hsh.
  assert (forall d, d ∈ directions <-> d ∈ DIRECTIONS) as Hperm.
  { intros d. rewrite <- (elem_of_random_shuffle DIRECTIONS g d).
    by rewrite Hsh. }
  pose proof (backup_loop_spec self directions []) as Hloop.
  destruct (backup_loop self directions []) as [[d|ub]|e]; [| |done].
  - destruct Hloop as (Hin & Hb & q & Hq & Hq1). simpl.
    exists (Some d), g'. split; [done|].
    assert (full d) as Hfull by (split; eauto).
    split_and!.
    + split; [done|]. intros Hall. apply Hperm, Hall in Hin.
      unfold neighbor in Hin. congruence.
    + intros ? [= <-]. split; [by apply Hperm|done].
    + intros _. eauto.
    + intros Hno. exfalso. apply Hno. exists d. split; [by apply Hperm|done].
  - destruct Hloop as (Hdirs & Hub & _).
    assert (forall d q, (q, d) ∈ ub ->
              d ∈ DIRECTIONS /\ is_block self (neighbor d) = false
              /\ free_room self (neighbor d) = Ok q) as Hub'.
    { intros d q Hin. destruct (Hub _ Hin) as [Hnil|(Hd & ? & ?)].
      - by apply elem_of_nil in Hnil.
      - split_and!; [by apply Hperm|done|done]. }
    assert (~ (exists d0, d0 ∈ DIRECTIONS /\ full d0)) as Hnofull.
    { intros (d0 & Hd0 & Hb0 & q0 & Hq0 & Hq1).
      destruct (Hdirs d0 (proj2 (Hperm d0) Hd0)) as [Hb|(q & Hq & Hne & _)].
      - unfold neighbor in Hb0. congruence.
      - unfold neighbor in Hq0. congruence. }
    destruct ub as [|a ub].
    + simpl. exists None, g'. split; [done|]. split_and!; [|done|done|done].
      split; [|done]. intros _ d Hd.
      destruct (Hdirs d (proj2 (Hperm d) Hd)) as [Hb|(q & _ & _ & Hin)];
        [done|]. by apply elem_of_nil in Hin.
    + pose proof (py_max_tuple Vector_gt (a :: ub)) as Hmax.
      cbn [mbind Result_bind].
      destruct (py_max (tuple_gt Vector_gt) (a :: ub)) as [[q d]|e];
        [|by destruct Hmax]. cbn [snd].
      destruct Hmax as [Hin Hmax].
      destruct (Hub' d q Hin) as (HdD & Hb & Hq).
      exists (Some d), g'. split; [done|]. split_and!.
      * split; [done|]. intros Hall. apply Hall in HdD. congruence.
      * intros ? [= <-]. done.
      * done.
      * intros _ ? [= <-]. exists q. split; [done|]. intros d' Hd' Hb'.
        destruct (Hdirs d' (proj2 (Hperm d') Hd')) as [?|(q' & Hq' & _ & Hin')];
          [unfold neighbor in Hb'; congruence|].
        exists q'. split; [done|]. apply (Hmax (q', d') Hin').
Qed.

(** C4.  With an agent length of at least 1, [backup] returns; it returns
    none exactly when the four neighbours of the head are all blocked; a
    direction it returns leads to a neighbour that is not blocked; when
    some open neighbour has fraction 1.0 the neighbour it leads to has
    fraction 1.0; and otherwise the fraction of that neighbour is the
    greatest among the open neighbours. *)
Theorem backup_choice (self : Self.t) (g : Rng) :
  1 <= Self.length self ->
  let neighbor d := move (Self.head self) d in
  let full d :=
    is_block self (neighbor d) = false
    /\ exists q, free_room self (neighbor d) = Ok q /\ (q == 1)%Q in
  exists res g',
    backup self g = (Ok res, g')
    /\ (res = None <->
        forall d, d ∈ DIRECTIONS -> is_block self (neighbor d) = true)
    /\ (forall d, res = Some d ->
          d ∈ DIRECTIONS /\ is_block self (neighbor d) = false)
    /\ ((exists d0, d0 ∈ DIRECTIONS /\ full d0) ->
        exists d, res = Some d /\ full d)
    /\ (~ (exists d0, d0 ∈ DIRECTIONS /\ full d0) ->
        forall d, res = Some d ->
          exists q, free_room self (neighbor d) = Ok q
                    /\ forall d', d' ∈ DIRECTIONS ->
                         is_block self (neighbor d') = false ->
                         exists q', free_room self (neighbor d') = Ok q'
                                    /\ (q' <= q)%Q).
Proof. intros _. apply backup_spec. Qed.

Lemma backup_choice_witness :
  exists d, (backup scenario_snapshot []).1 = Ok (Some d)
            /\ d ∈ DIRECTIONS
            /\ is_block scenario_snapshot (move (Self.head scenario_snapshot) d)
               = false.
Proof.
  assert (1 <= Self.length scenario_snapshot) as Hlen
    by (vm_compute; discriminate).
  destruct (backup_choice scenario_snapshot [] Hlen)
    as (res & g' & Hb & Hnone & Hsome & _).
  destruct res as [d|].
  - exists d. rewrite Hb. split; [reflexivity|]. by apply Hsome.
  - exfalso. pose proof (proj1 Hnone eq_refl UP) as Hup.
    assert (UP ∈ DIRECTIONS) as HUP by (by left).
    specialize (Hup HUP). vm_compute in Hup. discriminate.
Defined.

Lemma backup_returns self g : exists res g', backup self g = (Ok res, g').
Proof.
  destruct (backup_spec self g) as (res & g' & H & _). eauto.
Qed.

(** ** C2: a failed plan falls back to [backup] *)

(** C2.  When, in the snapshot that [next_direction] takes, [find_best]
    returns a target and [get_to] raises [CannotContinue] toward it,
    [next_direction] returns exactly what [backup] returns, called on the
    robot and the random source as the planner left them; that result is
    a value, so [CannotContinue] does not come out of [next_direction]. *)
Theorem next_direction_recovers (self : Self.t) (g : Rng)
    (target : Position) (self' : Self.t) (g' : Rng) :
  find_best (get_position self) = Ok (Some target) ->
  get_to (get_position self) target g = (Raise CannotContinue, self', g') ->
  next_direction self g = ((backup self' g').1, self', (backup self' g').2)
  /\ (exists res, (next_direction self g).1.1 = Ok res)
  /\ (next_direction self g).1.1 <> Raise CannotContinue.
Proof.
  intros Hbest Hget.
  assert (next_direction self g
          = ((backup self' g').1, self', (backup self' g').2)) as Heq.
  { unfold next_direction. rewrite Hbest, Hget. by destruct (backup self' g'). }
  split; [done|]. rewrite Heq. simpl.
  destruct (backup_returns self' g') as (res & g'' & ->). simpl.
  split; [eauto|discriminate].
Qed.

Lemma next_direction_recovers_witness :
  next_direction walled_robot []
  = ((backup (get_to (get_position walled_robot) (Position.mk 2 0) []).1.2 []).1,
     (get_to (get_position walled_robot) (Position.mk 2 0) []).1.2,
     (backup (get_to (get_position walled_robot) (Position.mk 2 0) []).1.2 []).2)
  /\ (exists res, (next_direction walled_robot []).1.1 = Ok res)
  /\ (next_direction walled_robot []).1.1 <> Raise CannotContinue.
Proof.
  apply (next_direction_recovers walled_robot [] (Position.mk 2 0)
           (get_to (get_position walled_robot) (Position.mk 2 0) []).1.2 []).
  - vm_compute. reflexivity.
  - vm_compute. reflexivity.
Defined.

Lemma find_best_scan_raises self cells points e :
  find_best_scan self cells points = Raise e -> e = ZeroDivisionError.
Proof.
  revert points. induction cells as [|c cells IH]; intros points H;
    [discriminate|].
  simpl in H. destruct (World.cell _ _ _) as [char color].
  destruct char; try (by eapply IH).
  unfold compute_score, truediv in H. destruct (_ =? 0).
  - simpl in H. by injection H as <-.
  - simpl in H. by eapply IH.
Qed.

Lemma find_best_raises self e :
  find_best self = Raise e -> e = ZeroDivisionError.
Proof.
  unfold find_best. intros H.
  destruct (find_best_scan _ _ _) as [points|e'] eqn:Hscan.
  - simpl in H. pose proof (py_max_tuple Position_gt points) as Hmax.
    destruct (py_max _ points) as [m|e']; [discriminate|].
    destruct Hmax as [-> _]. discriminate.
  - simpl in H. injection H as <-. by eapply find_best_scan_raises.
Qed.

(** [next_direction] lets no exception out but the [ZeroDivisionError] of
    [find_best]. *)
Lemma next_direction_outcome self g :
  (exists res, (next_direction self g).1.1 = Ok res)
  \/ (next_direction self g).1.1 = Raise ZeroDivisionError
     /\ find_best (get_position self) = Raise ZeroDivisionError.
Proof.
  unfold next_direction.
  destruct (find_best (get_position self)) as [[best|]|e] eqn:Hbest.
  - destruct (get_to (get_position self) best g) as [[r self'] g'] eqn:Hget.
    destruct (get_to_inv _ _ _ _ _ _ Hget) as (_ & _ & [->| ->]).
    + destruct (Self.plan_directions self'); [|left; simpl; eauto].
      destruct (backup_returns self' g') as (res & g'' & ->). left. simpl. eauto.
    + destruct (backup_returns self' g') as (res & g'' & ->). left. simpl. eauto.
  - destruct (backup_returns (get_position self) g) as (res & g'' & ->).
    left. simpl. eauto.
  - right. assert (e = ZeroDivisionError) as ->; [|done].
    by eapply find_best_raises.
Qed.

(** ** A digit under the head *)

Lemma find_best_scan_points self cells acc points :
  find_best_scan self cells acc = Ok points ->
  forall a, a ∈ points ->
    a ∈ acc \/ a.2 ∈ cells /\ distance (Self.head self) a.2 <> 0.
Proof.
  revert acc. induction cells as [|c cells IH]; intros acc H a Ha.
  - simpl in H. injection H as <-. by left.
  - simpl in H. destruct (World.cell _ _ _) as [char color].
    assert (forall acc', find_best_scan self cells acc' = Ok points ->
              a ∈ acc' \/ a.2 ∈ c :: cells /\ distance (Self.head self) a.2 <> 0)
      as IH'.
    { intros acc' H'. destruct (IH _ H' a Ha) as [?|[? ?]]; [by left|].
      right. split; [by right|done]. }
    destruct char; try (by apply IH').
    unfold compute_score, truediv in H.
    destruct (Z.eqb_spec (distance (Self.head self) c) 0); [discriminate|].
    simpl in H. destruct (IH' _ H) as [Hin|?]; [|by right].
    apply elem_of_app in Hin as [?|Hin]; [by left|].
    apply list_elem_of_singleton in Hin as ->. right. simpl.
    split; [by left|done].
Qed.

(** [find_best] never returns the head: a digit there makes it raise. *)
Lemma find_best_not_head self target :
  find_best self = Ok (Some target) -> target <> Self.head self.
Proof.
  intros H Heq. subst target. unfold find_best in H.
  destruct (find_best_scan self (grid_positions (Self.world self)) [])
    as [points|e] eqn:Hscan; [|discriminate].
  simpl in H. pose proof (py_max_tuple Position_gt points) as Hmax.
  destruct (py_max (tuple_gt Position_gt) points) as [[q p]|e].
  2:{ by destruct e. }
  injection H as Hp. simpl in Hp. subst p. destruct Hmax as [Hin _].
  destruct (find_best_scan_points _ _ _ _ Hscan _ Hin) as [Hnil|[_ Hd]].
  - by apply elem_of_nil in Hnil.
  - apply Hd. simpl. unfold distance. lia.
Qed.

(** A digit on the head's coordinate makes [find_best], and with it
    [next_direction], raise [ZeroDivisionError]: the branch of
    [next_direction] for an empty plan is never reached. *)
Lemma next_direction_digit_at_head self g d :
  digit_at (get_position self) (Self.head (get_position self)) d ->
  find_best (get_position self) = Raise ZeroDivisionError
  /\ (next_direction self g).1.1 = Raise ZeroDivisionError.
Proof.
  intros [Hin Hd].
  assert (find_best (get_position self) = Raise ZeroDivisionError) as Hbest.
  { unfold find_best.
    rewrite (find_best_scan_raise _ _ _ (Self.head (get_position self)) d);
      [done|by apply elem_of_grid_positions|done|unfold distance; lia]. }
  split; [done|]. unfold next_direction. by rewrite Hbest.
Qed.

(** A robot that is not on the grid, its head still at (0,0), and a '5'
    on that coordinate: the score of the digit is [5 / 0], [find_best]
    raises [ZeroDivisionError] and [next_direction] does not catch it. *)
Example next_direction_digit_under_head :
  let robot := get_position digit_under_head_robot in
  digit_at robot (Self.head robot) D5
  /\ find_best robot = Raise ZeroDivisionError
  /\ (next_direction digit_under_head_robot []).1.1 = Raise ZeroDivisionError
  /\ (backup robot []).1 = Ok (Some DOWN).
Proof.
  split_and!.
  - split; [vm_compute; intuition discriminate|reflexivity].
  - vm_compute. reflexivity.
  - vm_compute. reflexivity.
  - vm_compute. reflexivity.
Qed.

(** ** C9: the scenario of the spec *)

(** C9.  On the 10 x 10 grid that is empty but for the head at (5,5), of
    an agent of length 1, and a '9' at (5,2): the target is (5,2), the
    planner leaves the plan (5,4), (5,3), (5,2) with the direction "up"
    three times, and the decision is "up", whatever the random source. *)
Theorem scenario_plan_and_decision (g : Rng) :
  Self.head scenario_snapshot = Position.mk 5 5
  /\ Self.length scenario_snapshot = 1
  /\ find_best scenario_snapshot = Ok (Some (Position.mk 5 2))
  /\ (exists self',
        get_to scenario_snapshot (Position.mk 5 2) g = (Ok (), self', g)
        /\ Self.plan self'
           = [Position.mk 5 4; Position.mk 5 3; Position.mk 5 2]
        /\ Self.plan_directions self' = [UP; UP; UP])
  /\ (next_direction scenario_robot g).1.1 = Ok (Some UP)
  /\ (next_direction scenario_robot g).2 = g.
Proof.
  split_and!; try (vm_compute; reflexivity).
  eexists. split_and!; [vm_compute; reflexivity|reflexivity..].
Qed.

(** * Further properties of the code *)

(** ** The flood fill *)

Lemma flood_fill_from_open_start fuel self start ys :
  is_block self start = false ->
  flood_fill_from fuel self (flood_init start) = Some ys ->
  exists ys', ys = start :: ys'.
Proof.
  destruct fuel as [|fuel]; [discriminate|]. intros Hb.
  cbn [flood_fill_from]. unfold flood_step at 1.
  cbn [points_to_check flood_init done].
  case_bool_decide as Hd; [set_solver|]. rewrite Hb.
  destruct (flood_fill_from _ _ _) as [ys'|]; simpl; [|discriminate].
  intros [= <-]. eauto.
Qed.

(** X1.  [flood_fill(point)] yields exactly the open cells that a
    4-connected walk over open cells reaches from [point], each of them
    once; it yields [point] first when [point] is open and nothing when it
    is blocked. *)
Theorem flood_fill_yields_reachable (self : Self.t) (start : Position) :
  NoDup (flood_fill self start)
  /\ (forall p, p ∈ flood_fill self start <-> reachable self start p)
  /\ (is_block self start = false ->
      exists ys, flood_fill self start = start :: ys)
  /\ (is_block self start = true -> flood_fill self start = []).
Proof.
  destruct (flood_fill_correct self start) as [Hnd Hin].
  split_and!; [done|done| |apply flood_fill_blocked].
  intros Hb.
  apply (flood_fill_from_open_start _ _ _ _ Hb (flood_fill_eq self start)).
Qed.

(** X2.  The loop of [flood_fill] ends: though a blocked cell is never
    added to [done] and can be popped again, [4 * width * height + 2]
    iterations exhaust the generator from any start, and it yields at
    most [width * height] points. *)
Theorem flood_fill_terminates (self : Self.t) (start : Position) :
  let w := Self.world self in
  let cells := (Z.to_nat (World.SIZE_X w) * Z.to_nat (World.SIZE_Y w))%nat in
  (forall fuel, (4 * cells + 2 <= fuel)%nat ->
     flood_fill_from fuel self (flood_init start)
     = Some (flood_fill self start))
  /\ (List.length (flood_fill self start) <= cells)%nat.
Proof.
  intros w cells. split.
  - intros fuel Hle. eapply flood_fill_from_mono; [apply flood_fill_eq|].
    unfold flood_fuel. fold w cells. lia.
  - destruct (flood_fill_correct self start) as [Hnd Hin].
    etransitivity; [|apply (size_open_cells self)].
    unfold size, set_size. simpl.
    apply submseteq_length, NoDup_submseteq; [done|].
    intros p Hp. apply elem_of_elements, elem_of_open_cells.
    apply Hin in Hp. by eapply reachable_open.
Qed.

(** ** [free_room], case by case *)

Lemma Qdiv_0_l (b : Z) : (inject_Z 0 / inject_Z b == 0)%Q.
Proof. unfold Qdiv. apply Qmult_0_l. Qed.

(** X3.  With [R] the set of open cells 4-connected to the start and [n]
    their number: [free_room] raises [ZeroDivisionError] on a blocked
    start when the length is 0, and returns 0 on a blocked start
    otherwise; on an open start it returns exactly 1.0 when the length is
    at most [n], a length of 0 or less included, and the fraction
    [n / length], strictly between 0 and 1, when the length exceeds
    [n]. *)
Theorem free_room_cases (self : Self.t) (start : Position) (R : gset Position) :
  (forall p, p ∈ R <-> reachable self start p) ->
  let n := Z.of_nat (size R) in
  let len := Self.length self in
  (is_block self start = true -> len = 0 ->
   free_room self start = Raise ZeroDivisionError)
  /\ (is_block self start = true -> len <> 0 ->
      exists q, free_room self start = Ok q /\ (q == 0)%Q)
  /\ (is_block self start = false -> len <= n ->
      free_room self start = Ok 1%Q)
  /\ (is_block self start = false -> n < len ->
      exists q, free_room self start = Ok q
                /\ (q == inject_Z n / inject_Z len)%Q
                /\ (0 < q)%Q /\ (q < 1)%Q).
Proof.
  intros HR n len. rewrite free_room_eq.
  rewrite (length_flood_fill self start R HR). fold n len.
  unfold free_room_value. rewrite !Z.add_0_l.
  split_and!; intros Hb Hlen.
  - assert (n = 0) as ->.
    { unfold n. rewrite <- (length_flood_fill self start R HR).
      by rewrite (flood_fill_blocked _ _ Hb). }
    simpl. unfold truediv. by rewrite Hlen.
  - assert (n = 0) as ->.
    { unfold n. rewrite <- (length_flood_fill self start R HR).
      by rewrite (flood_fill_blocked _ _ Hb). }
    simpl. unfold truediv. destruct (Z.eqb_spec len 0); [done|].
    eexists. split; [done|]. apply Qdiv_0_l.
  - assert (0 < n) as Hn.
    { unfold n. rewrite <- (length_flood_fill self start R HR).
      pose proof (flood_fill_open _ _ Hb). lia. }
    destruct (Z.ltb_spec 0 n); [|lia].
    destruct (Z.leb_spec len n); [done|lia].
  - assert (0 < n) as Hn.
    { unfold n. rewrite <- (length_flood_fill self start R HR).
      pose proof (flood_fill_open _ _ Hb). lia. }
    destruct (Z.ltb_spec 0 n); [|lia].
    destruct (Z.leb_spec len n); [lia|]. simpl.
    pose proof (truediv_pos n len ltac:(lia)) as Htd.
    rewrite Htd. eexists. split; [done|]. split_and!.
    + rewrite Qmake_Qdiv, Z2Pos.id by lia. apply Qeq_refl.
    + apply Qmake_gt_0. lia.
    + unfold Qlt. simpl. rewrite Z2Pos.id by lia. lia.
Qed.

Lemma free_room_cases_witness :
  free_room scenario_snapshot (Position.mk 5 4) = Ok 1%Q
  /\ free_room scenario_snapshot (Position.mk 5 5) = Ok (0 # 1)%Q.
Proof.
  split.
  - destruct (free_room_cases scenario_snapshot (Position.mk 5 4)
                (list_to_set (flood_fill scenario_snapshot (Position.mk 5 4))))
      as (_ & _ & Hfull & _).
    + intros p. rewrite elem_of_list_to_set.
      apply (flood_fill_correct scenario_snapshot (Position.mk 5 4)).
    + apply Hfull; [vm_compute; reflexivity|vm_compute; discriminate].
  - vm_compute. reflexivity.
Defined.

(** ** The scan of [get_position] *)

Lemma NoDup_grid_positions (w : World) : NoDup (grid_positions w).
Proof.
  unfold grid_positions. apply NoDup_bind.
  - intros y1 y2 p _ _ H1 H2.
    apply list_elem_of_bind in H1 as (x1 & H1 & _).
    apply list_elem_of_bind in H2 as (x2 & H2 & _).
    apply list_elem_of_singleton in H1, H2. congruence.
  - intros yy _. apply NoDup_bind.
    + intros x1 x2 p _ _ H1 H2. apply list_elem_of_singleton in H1, H2.
      congruence.
    + intros. apply NoDup_singleton.
    + apply NoDup_seqZ.
  - apply NoDup_seqZ.
Qed.

Lemma default_last_cons {A : Type} (d a : A) (l : list A) :
  default d (last (a :: l)) = default a (last l).
Proof. rewrite last_cons. by destruct (last l). Qed.

(** The body of the scan at one cell. *)
Lemma get_position_cell_eq (s0 : Self.t) (p : Position) :
  get_position_cell s0 p
  = if decide (cell_color s0 p = Self.color s0) then
      Self.mk (Self.world s0) (Self.color s0) (Self.length s0 + 1)
        (if decide (cell_char s0 p = CH_HEAD) then p else Self.head s0)
        (if decide (cell_char s0 p = CH_TAIL) then p else Self.tail s0)
        (Self.body s0 ++ [p]) (Self.plan s0) (Self.plan_directions s0)
    else s0.
Proof.
  unfold get_position_cell, cell_color, cell_char.
  destruct (World.cell _ _ _) as [char color]. simpl.
  case_bool_decide; destruct (decide _); try done.
  destruct char; reflexivity.
Qed.

(** What the scan leaves when it has run over [cells]. *)
Lemma get_position_fold (w : World) (c : Z) (cells : list Position)
    (s0 : Self.t) :
  Self.world s0 = w -> Self.color s0 = c ->
  let own := filter (fun p => (World.cell w (Position.y p) (Position.x p)).2 = c)
                    cells in
  let marked ch :=
    filter (fun p => (World.cell w (Position.y p) (Position.x p)).1 = ch) own in
  fold_left get_position_cell cells s0
  = Self.mk w c (Self.length s0 + Z.of_nat (List.length own))
      (default (Self.head s0) (last (marked CH_HEAD)))
      (default (Self.tail s0) (last (marked CH_TAIL)))
      (Self.body s0 ++ own) (Self.plan s0) (Self.plan_directions s0).
Proof.
  revert s0. induction cells as [|p cells IH]; intros s0 Hw Hc.
  - simpl. rewrite Z.add_0_r, app_nil_r. destruct s0; simpl in *. by subst.
  - cbn [fold_left]. cbv zeta in *. rewrite get_position_cell_eq.
    unfold cell_color, cell_char. rewrite Hw, Hc.
    rewrite (filter_cons (fun p => (World.cell w _ _).2 = c)).
    destruct (decide ((World.cell w (Position.y p) (Position.x p)).2 = c))
      as [Hown|Hown].
    + rewrite IH by done. cbn [Self.length Self.head Self.tail Self.body
                                 Self.plan Self.plan_directions].
      rewrite !(filter_cons (fun p => (World.cell w _ _).1 = _)).
      rewrite length_cons, <- app_assoc. simpl app.
      destruct (decide (_ = CH_HEAD)) as [Hh|Hh];
        destruct (decide (_ = CH_TAIL)) as [Ht|Ht];
        rewrite ?default_last_cons; try congruence; f_equal; lia.
    + by rewrite IH.
Qed.

Lemma get_position_eq (self : Self.t) :
  get_position self
  = Self.mk (Self.world self) (Self.color self)
      (Z.of_nat (List.length (own_cells self)))
      (default (Self.head self) (last (own_cells_with self CH_HEAD)))
      (default (Self.tail self) (last (own_cells_with self CH_TAIL)))
      (own_cells self) (Self.plan self) (Self.plan_directions self).
Proof.
  unfold get_position.
  by rewrite (get_position_fold (Self.world self) (Self.color self)).
Qed.

Lemma elem_of_own_cells self p :
  p ∈ own_cells self <->
  in_bounds (Self.world self) p /\ cell_color self p = Self.color self.
Proof.
  unfold own_cells. rewrite list_elem_of_filter, elem_of_grid_positions.
  tauto.
Qed.

(** X4.  After [get_position], [self.body] lists the cells of the grid
    that have the agent's colour, whatever their symbol, in the order of
    the scan and each once, and [self.length] is their number; the world,
    the colour and the plan are as before. *)
Theorem get_position_body (self : Self.t) :
  let self' := get_position self in
  Self.body self' = own_cells self
  /\ Self.length self' = Z.of_nat (List.length (Self.body self'))
  /\ NoDup (Self.body self')
  /\ (forall p, p ∈ Self.body self' <->
                in_bounds (Self.world self) p
                /\ cell_color self p = Self.color self)
  /\ Self.world self' = Self.world self
  /\ Self.color self' = Self.color self
  /\ Self.plan self' = Self.plan self
  /\ Self.plan_directions self' = Self.plan_directions self.
Proof.
  intros self'. unfold self'. rewrite get_position_eq. simpl.
  split_and!; try done.
  - apply NoDup_filter, NoDup_grid_positions.
  - apply elem_of_own_cells.
Qed.

Lemma elem_of_own_cells_with self ch p :
  p ∈ own_cells_with self ch <->
  in_bounds (Self.world self) p /\ cell_color self p = Self.color self
  /\ cell_char self p = ch.
Proof.
  unfold own_cells_with. rewrite list_elem_of_filter, elem_of_own_cells. tauto.
Qed.

Lemma is_block_marked self p ch :
  in_bounds (Self.world self) p -> cell_char self p = ch -> ch ∈ BLOCKS ->
  is_block self p = true.
Proof.
  unfold is_block, in_bounds, cell_char. intros [Hx Hy] Hch Hin.
  destruct (Z.ltb_spec (Position.x p) 0); [done|].
  destruct (Z.geb_spec (Position.x p) (World.SIZE_X (Self.world self)));
    [done|].
  destruct (Z.ltb_spec (Position.y p) 0); [done|].
  destruct (Z.geb_spec (Position.y p) (World.SIZE_Y (Self.world self)));
    [done|].
  simpl. destruct (World.cell _ _ _) as [char color]. simpl in Hch. subst char.
  by apply bool_decide_eq_true.
Qed.

(** X5.  [get_position] sets [self.head] to the last cell in scan order
    that has the agent's colour and the head symbol; that cell is then in
    [self.body] and is blocked.  When the grid has no such cell,
    [self.head] keeps the value it had before the scan.  The same holds
    of [self.tail] and the tail symbol. *)
Theorem get_position_head_tail (self : Self.t) :
  let self' := get_position self in
  let heads := own_cells_with self CH_HEAD in
  let tails := own_cells_with self CH_TAIL in
  (heads = [] -> Self.head self' = Self.head self)
  /\ (forall h, last heads = Some h ->
        Self.head self' = h /\ h ∈ Self.body self'
        /\ cell_char self h = CH_HEAD /\ is_block self' h = true)
  /\ (tails = [] -> Self.tail self' = Self.tail self)
  /\ (forall t, last tails = Some t ->
        Self.tail self' = t /\ t ∈ Self.body self'
        /\ cell_char self t = CH_TAIL /\ is_block self' t = true).
Proof.
  intros self' heads tails. unfold self'. rewrite get_position_eq.
  fold heads tails. simpl.
  assert (forall ch l p, l = own_cells_with self ch -> last l = Some p ->
            ch ∈ BLOCKS ->
            p ∈ own_cells self /\ cell_char self p = ch
            /\ forall s, Self.world s = Self.world self -> is_block s p = true)
    as Hlast.
  { intros ch l p -> Hp Hch. apply last_Some_elem_of in Hp.
    apply elem_of_own_cells_with in Hp as (Hin & Hcol & Hchar).
    split_and!; [by apply elem_of_own_cells|done|].
    intros s Hs. rewrite (is_block_ext s self p Hs).
    by eapply is_block_marked. }
  split_and!.
  - by intros ->.
  - intros h Hh. rewrite Hh. simpl.
    destruct (Hlast CH_HEAD heads h eq_refl Hh) as (? & ? & Hb);
      [unfold BLOCKS, BODY_CHARS; set_solver|].
    split_and!; [done..|]. by apply Hb.
  - by intros ->.
  - intros t Ht. rewrite Ht. simpl.
    destruct (Hlast CH_TAIL tails t eq_refl Ht) as (? & ? & Hb);
      [unfold BLOCKS, BODY_CHARS; set_solver|].
    split_and!; [done..|]. by apply Hb.
Qed.

(** X6.  [get_position] is idempotent: a second scan of the same world
    changes nothing. *)
Theorem get_position_idempotent (self : Self.t) :
  get_position (get_position self) = get_position self.
Proof.
  pose proof (get_position_eq self) as Heq.
  remember (get_position self) as s1 eqn:Hs1. clear Hs1.
  assert (own_cells s1 = own_cells self
          /\ forall ch, own_cells_with s1 ch = own_cells_with self ch)
    as [Hown Hwith].
  { unfold own_cells_with, own_cells, cell_color, cell_char.
    by rewrite Heq. }
  rewrite (get_position_eq s1), Hown, !Hwith. rewrite Heq. simpl. f_equal.
  - by destruct (last (own_cells_with self CH_HEAD)).
  - by destruct (last (own_cells_with self CH_TAIL)).
Qed.

(** ** The generator [iter_directions] *)

Lemma random_choice_nonempty {A : Type} (l : list A) (g : Rng) :
  l <> [] -> exists c, random_choice l g = (Some c, drop 1 g) /\ c ∈ l.
Proof.
  intros Hne. unfold random_choice, randbelow.
  assert ((draw g).2 = drop 1 g) as Hd by (by destruct g).
  destruct (draw g) as [k g']. simpl in Hd. subst g'.
  destruct (lookup_lt_is_Some_2 l (k mod List.length l)) as [c Hc].
  { apply Nat.mod_upper_bound. by destruct l. }
  exists c. rewrite Hc. split; [done|]. by eapply list_elem_of_lookup_2.
Qed.

Lemma remove_NoDup (c : Vector) (l : list Vector) :
  NoDup l -> c ∈ l ->
  l ≡ₚ c :: remove Vector.eq_dec c l /\ NoDup (remove Vector.eq_dec c l).
Proof.
  induction 1 as [|a l Ha Hnd IH]; intros Hc; [by apply elem_of_nil in Hc|].
  simpl. destruct (Vector.eq_dec c a) as [->|Hne].
  - rewrite notin_remove by (by rewrite <- list_elem_of_In). done.
  - apply elem_of_cons in Hc as [?|Hc]; [done|].
    destruct (IH Hc) as [Hp Hnd']. split.
    + rewrite Hp at 1. apply Permutation_swap.
    + constructor; [|done]. intros Hin. by apply elem_of_remove in Hin.
Qed.

Lemma iter_directions_next_backup (bs : list Vector) (g g' : Rng) (c : Vector) :
  bs <> [] -> random_choice bs g = (Some c, g') ->
  iter_directions_next
    {| preferred_direction := None; backup_directions := bs |} g
  = (Some (c, {| preferred_direction := None;
                 backup_directions := remove Vector.eq_dec c bs |}), g').
Proof.
  intros Hne Hc. unfold iter_directions_next.
  cbn [preferred_direction backup_directions]. rewrite Hc.
  by destruct bs.
Qed.

Lemma iter_directions_run_S (fuel : nat) (gen : DirGen) (g : Rng) :
  iter_directions_run (S fuel) gen g
  = match iter_directions_next gen g with
    | (None, g') => Some ([], g')
    | (Some (d, gen'), g') =>
        match iter_directions_run fuel gen' g' with
        | Some (ds, g'') => Some (d :: ds, g'')
        | None => None
        end
    end.
Proof. reflexivity. Qed.

Lemma iter_directions_run_backups (n : nat) (bs : list Vector) (g : Rng) :
  List.length bs = n -> NoDup bs ->
  exists ds,
    iter_directions_run (S n)
      {| preferred_direction := None; backup_directions := bs |} g
    = Some (ds, drop n g)
    /\ ds ≡ₚ bs.
Proof.
  revert bs g. induction n as [|n IH]; intros bs g Hlen Hnd.
  - destruct bs; [|done]. exists []. by rewrite drop_0.
  - assert (bs <> []) as Hne by (by destruct bs).
    destruct (random_choice_nonempty bs g Hne) as (c & Hch & Hc).
    rewrite iter_directions_run_S.
    rewrite (iter_directions_next_backup bs g _ c Hne Hch).
    destruct (remove_NoDup c bs Hnd Hc) as [Hperm Hnd'].
    destruct (IH (remove Vector.eq_dec c bs) (drop 1 g)) as (ds & -> & Hds);
      [|done|].
    { apply Permutation_length in Hperm. simpl in Hperm. lia. }
    exists (c :: ds). split; [by rewrite drop_drop|].
    by rewrite Hds, <- Hperm.
Qed.

(** X7.  Run to exhaustion on a preferred direction and a set of backup
    directions, [iter_directions] yields the preferred direction first
    and then every backup direction exactly once, in an order the random
    source decides; it draws one random number for each backup and none
    for the preferred direction. *)
Theorem iter_directions_yields (preferred : Vector) (backups : list Vector)
    (g : Rng) :
  NoDup backups ->
  exists ds,
    iter_directions_run (S (S (List.length backups)))
      (iter_directions preferred backups) g
    = Some (preferred :: ds, drop (List.length backups) g)
    /\ ds ≡ₚ backups.
Proof.
  intros Hnd.
  destruct (iter_directions_run_backups (List.length backups) backups g eq_refl Hnd)
    as (ds & Hrun & Hperm).
  exists ds. split; [|done].
  rewrite iter_directions_run_S. unfold iter_directions, iter_directions_next.
  cbn [preferred_direction backup_directions]. by rewrite Hrun.
Qed.

Lemma iter_directions_yields_witness :
  exists ds,
    iter_directions_run 4 (iter_directions UP [RIGHT; LEFT]) [1; 0]%nat
    = Some (UP :: ds, [])
    /\ ds ≡ₚ [RIGHT; LEFT].
Proof.
  apply (iter_directions_yields UP [RIGHT; LEFT] [1; 0]%nat).
  repeat constructor; set_solver.
Defined.

(** ** More on the plan of [get_to] *)

Lemma steps_follow_snoc prev path dirs p d :
  steps_follow prev path dirs -> d ∈ DIRECTIONS ->
  p = move (path_end prev path) d ->
  steps_follow prev (path ++ [p]) (dirs ++ [d]).
Proof.
  unfold path_end. revert prev dirs.
  induction path as [|a path IH]; intros prev dirs; destruct dirs as [|e dirs];
    simpl; try done.
  intros (He & Ha & Hrest) Hd Hp. split_and!; [done..|].
  apply IH; [done..|]. by rewrite default_last_cons in Hp.
Qed.

Lemma steps_follow_length prev path dirs :
  steps_follow prev path dirs -> List.length dirs = List.length path.
Proof.
  revert prev dirs. induction path as [|a path IH]; intros prev [|e dirs];
    simpl; try done.
  intros (_ & _ & H). f_equal. by eapply IH.
Qed.

Lemma distance_triangle (a b c : Position) :
  distance a c <= distance a b + distance b c.
Proof. unfold distance. lia. Qed.

Lemma steps_adjacent_distance prev path :
  steps_adjacent prev path ->
  distance prev (path_end prev path) <= Z.of_nat (List.length path).
Proof.
  unfold path_end. revert prev.
  induction path as [|a path IH]; intros prev; simpl.
  - intros _. unfold distance. lia.
  - intros [Ha Hrest]. rewrite default_last_cons.
    pose proof (IH a Hrest).
    pose proof (distance_triangle prev a (default a (last path))). lia.
Qed.

(** On an open cell [free_room] is exactly 1.0 or a fraction below it. *)
Lemma free_room_open_value self p :
  is_block self p = false ->
  free_room self p = Ok 1%Q
  \/ exists q, free_room self p = Ok q /\ (q < 1)%Q.
Proof.
  intros Hb. rewrite free_room_eq. unfold free_room_value.
  pose proof (flood_fill_open _ _ Hb) as Hn. rewrite Z.add_0_l.
  destruct (Z.ltb_spec 0 (Z.of_nat (List.length (flood_fill self p)))); [|lia].
  simpl. destruct (Z.leb_spec (Self.length self)
                     (Z.of_nat (List.length (flood_fill self p)))); [by left|].
  right. rewrite truediv_pos by lia. eexists. split; [done|].
  unfold Qlt. simpl. rewrite Z2Pos.id by lia. lia.
Qed.

Lemma Qlt_bool_iff (a b : Q) : Qlt_bool a b = true <-> (a < b)%Q.
Proof.
  unfold Qlt_bool, Qgt_bool. rewrite negb_true_iff. split.
  - intros H. apply Qnot_le_lt. intros Hle. apply Qle_bool_iff in Hle.
    congruence.
  - intros Hlt. destruct (Qle_bool b a) eqn:E; [|done].
    apply Qle_bool_iff in E. by apply Qle_not_lt in E.
Qed.

(** What acceptance and refusal of a point mean. *)
Lemma accepted_iff self p :
  (accepted self p = Ok true <->
   is_block self p = false /\ (p ∉ Self.plan self)
   /\ free_room self p = Ok 1%Q)
  /\ (accepted self p = Ok false <->
      is_block self p = true \/ p ∈ Self.plan self
      \/ exists q, free_room self p = Ok q /\ (q < 1)%Q).
Proof.
  unfold accepted. destruct (is_block self p) eqn:Hb.
  { split; split; try done; [intros (? & _); done|by left]. }
  case_bool_decide as Hin.
  { split; split; try done; [intros (_ & ? & _); done|intros _; by right; left]. }
  destruct (free_room_open_value _ _ Hb) as [Hq|(q & Hq & Hlt)]; rewrite Hq;
    simpl.
  - split; split; try done. intros [?|[?|(q & [= <-] & Hlt)]]; try done.
  - apply Qlt_bool_iff in Hlt as Hlt'. rewrite Hlt'. simpl.
    split; split; try done.
    + intros (_ & _ & [= ->]). revert Hlt. unfold Qlt. simpl. lia.
    + intros _. right. right. eauto.
Qed.

(** The loop keeps the plan and its directions in step, and every point
    of the plan has the full fraction. *)
Lemma get_to_loop_follow fuel self target cx cy g r self' g' :
  get_to_loop fuel self target cx cy g = Some (r, self', g') ->
  plan_inv self cx cy ->
  steps_follow (Self.head self) (Self.plan self) (Self.plan_directions self) ->
  (forall p, p ∈ Self.plan self -> free_room self p = Ok 1%Q) ->
  steps_follow (Self.head self) (Self.plan self') (Self.plan_directions self')
  /\ (forall p, p ∈ Self.plan self' -> free_room self p = Ok 1%Q).
Proof.
  revert self cx cy g.
  induction fuel as [|fuel IH]; intros self cx cy g H Hinv Hfol Hfull.
  - simpl in H. destruct (_ && _); [|discriminate].
    by injection H as <- <- <-.
  - rewrite get_to_loop_unfold in H. destruct (_ && _).
    { by injection H as <- <- <-. }
    destruct (choose_directions _ _) as [preferred backups] eqn:Hch.
    destruct (for_direction _ _ _ _ _ _) as [[[[[np d]|]|e] g1]|] eqn:Hfor;
      try discriminate; try (by injection H as <- <- <-).
    destruct (plan_inv_step _ _ _ _ _ _ _ _ _ _ _ _ Hinv Hch Hfor)
      as (Hinv' & _).
    apply for_direction_accepts in Hfor as (Hnp & Hacc & Hd).
    apply choose_directions_in in Hch as (Hpre & Hbs & _).
    assert (d ∈ DIRECTIONS) as HdD.
    { destruct Hd as [Hd|Hd]; [|by apply Hbs]. simpl in Hd.
      by injection Hd as <-. }
    apply (proj1 (accepted_iff self np)) in Hacc as (_ & _ & Hroom).
    destruct (IH _ _ _ _ H Hinv') as [Hf Hr].
    + cbn [Self.head Self.plan Self.plan_directions Self.set_plan].
      apply steps_follow_snoc; [done..|].
      unfold path_end. by rewrite (plan_current _ _ _ Hinv).
    + cbn [Self.plan Self.set_plan]. intros p Hp.
      rewrite (free_room_ext _ self) by done.
      apply elem_of_app in Hp as [Hp|Hp]; [by apply Hfull|].
      by apply list_elem_of_singleton in Hp as ->.
    + split; [exact Hf|]. intros p Hp. rewrite <- (Hr p Hp).
      by apply free_room_ext.
Qed.

Lemma get_to_follow self target g r self' g' :
  get_to self target g = (r, self', g') ->
  steps_follow (Self.head self) (Self.plan self') (Self.plan_directions self')
  /\ (forall p, p ∈ Self.plan self' -> free_room self p = Ok 1%Q).
Proof.
  intros H. pose proof (get_to_eq self target g) as Heq. rewrite H in Heq.
  destruct (get_to_loop_follow _ _ _ _ _ _ _ _ _ Heq (plan_inv_init self))
    as [Hfol Hfull]; [done|intros p Hp; by apply elem_of_nil in Hp|].
  split; [done|]. intros p Hp. rewrite <- (Hfull p Hp).
  by apply free_room_ext.
Qed.

(** Where the loop raises, every candidate direction was refused. *)
Lemma get_to_loop_fails fuel self target cx cy g e self' g' :
  get_to_loop fuel self target cx cy g = Some (Raise e, self', g') ->
  plan_inv self cx cy ->
  let c := path_end (Self.head self') (Self.plan self') in
  c <> target
  /\ forall d, d ∈ step_candidates c target ->
               accepted self' (move c d) = Ok false.
Proof.
  revert self cx cy g.
  induction fuel as [|fuel IH]; intros self cx cy g H Hinv.
  - simpl in H. destruct (_ && _); discriminate.
  - rewrite get_to_loop_unfold in H.
    destruct ((cx =? Position.x target) && (cy =? Position.y target)) eqn:Hat;
      [discriminate|].
    destruct (choose_directions _ _) as [preferred backups] eqn:Hch.
    destruct (for_direction_returns self cx cy preferred backups g)
      as (o & g1 & Hfor).
    rewrite Hfor in H. destruct o as [[np d]|].
    + destruct (plan_inv_step _ _ _ _ _ _ _ _ _ _ _ _ Hinv Hch Hfor)
        as (Hinv' & _).
      apply (IH _ _ _ _ H Hinv').
    + injection H as <- <- <-. intros c.
      assert (c = Position.mk cx cy) as ->.
      { unfold c, path_end. apply (plan_current _ _ _ Hinv). }
      split.
      * intros <-. simpl in Hat. by rewrite !Z.eqb_refl in Hat.
      * intros d Hd. unfold step_candidates in Hd. simpl in Hd.
        rewrite Hch in Hd. eapply for_direction_none; [exact Hfor|].
        simpl. apply elem_of_cons in Hd as [->|Hd]; [by left|by right].
Qed.

(** X8.  When [get_to] returns without raising, the plan ends on the
    target; it is empty exactly when the target is the head's own
    coordinate; and it has at least as many steps as the Manhattan
    distance from the head to the target. *)
Theorem get_to_reaches_target (self : Self.t) (target : Position) (g : Rng)
    (self' : Self.t) (g' : Rng) :
  get_to self target g = (Ok (), self', g') ->
  path_end (Self.head self) (Self.plan self') = target
  /\ (Self.plan self' = [] <-> target = Self.head self)
  /\ distance (Self.head self) target <= Z.of_nat (List.length (Self.plan self')).
Proof.
  intros H.
  destruct (get_to_inv _ _ _ _ _ _ H) as ((cx & cy & Hinv & Hat) & Hself & _).
  assert (Self.head self' = Self.head self) as Hhead by (by rewrite Hself).
  assert (path_end (Self.head self) (Self.plan self') = target) as Hend.
  { unfold path_end. rewrite <- Hhead, (plan_current _ _ _ Hinv). by apply Hat. }
  split_and!; [done| |].
  - split.
    + intros Hnil. by rewrite Hnil in Hend.
    + intros ->. pose proof (get_to_eq self (Self.head self) g) as Heq.
      rewrite get_to_loop_at_target, H in Heq. by injection Heq as <- _.
  - rewrite <- Hend at 1. apply steps_adjacent_distance.
    rewrite <- Hhead. apply (plan_adjacent _ _ _ Hinv).
Qed.

Lemma get_to_reaches_target_witness :
  path_end (Self.head scenario_snapshot)
    (Self.plan (get_to scenario_snapshot (Position.mk 5 2) []).1.2)
  = Position.mk 5 2
  /\ (Self.plan (get_to scenario_snapshot (Position.mk 5 2) []).1.2 = [] <->
      Position.mk 5 2 = Self.head scenario_snapshot)
  /\ distance (Self.head scenario_snapshot) (Position.mk 5 2)
     <= Z.of_nat (List.length
                    (Self.plan (get_to scenario_snapshot (Position.mk 5 2) []).1.2)).
Proof.
  apply (get_to_reaches_target scenario_snapshot (Position.mk 5 2) []
           (get_to scenario_snapshot (Position.mk 5 2) []).1.2 []).
  vm_compute. reflexivity.
Defined.

(** X9.  Whether [get_to] returns or raises, [self.plan_directions] and
    [self.plan] stay in step: they have the same length and each point of
    the plan is the point before it, the first the head, moved by the
    direction at the same index, one of the four; and [get_to] changes
    nothing of [self] but these two. *)
Theorem get_to_directions_in_step (self : Self.t) (target : Position) (g : Rng) :
  let self' := (get_to self target g).1.2 in
  steps_follow (Self.head self) (Self.plan self') (Self.plan_directions self')
  /\ List.length (Self.plan_directions self') = List.length (Self.plan self')
  /\ self' = Self.set_plan self (Self.plan self') (Self.plan_directions self').
Proof.
  intros self'. unfold self'.
  destruct (get_to self target g) as [[r s'] g'] eqn:H. simpl.
  destruct (get_to_follow _ _ _ _ _ _ H) as [Hfol _].
  destruct (get_to_inv _ _ _ _ _ _ H) as (_ & Hself & _).
  split_and!; [done| |done]. by eapply steps_follow_length.
Qed.

(** X10.  Whether [get_to] returns or raises, every point of the plan it
    leaves is a cell of the grid that is not blocked and from which
    [free_room] is exactly 1.0. *)
Theorem get_to_plan_safe (self : Self.t) (target : Position) (g : Rng)
    (p : Position) :
  p ∈ Self.plan (get_to self target g).1.2 ->
  in_bounds (Self.world self) p
  /\ is_block self p = false
  /\ free_room self p = Ok 1%Q.
Proof.
  destruct (get_to self target g) as [[r s'] g'] eqn:H. simpl. intros Hp.
  destruct (get_to_follow _ _ _ _ _ _ H) as [_ Hfull].
  destruct (get_to_inv _ _ _ _ _ _ H) as ((cx & cy & Hinv & _) & Hself & _).
  assert (is_block self p = false) as Hb.
  { rewrite <- (is_block_ext s' self); [by apply (plan_open _ _ _ Hinv)|].
    by rewrite Hself. }
  split_and!; [by apply is_block_false_in_bounds|done|by apply Hfull].
Qed.

Lemma get_to_plan_safe_witness :
  in_bounds (Self.world scenario_snapshot) (Position.mk 5 3)
  /\ is_block scenario_snapshot (Position.mk 5 3) = false
  /\ free_room scenario_snapshot (Position.mk 5 3) = Ok 1%Q.
Proof.
  apply (get_to_plan_safe scenario_snapshot (Position.mk 5 2) []).
  vm_compute. set_solver.
Defined.

(** X11.  When [get_to] raises [CannotContinue], the plan it leaves stops
    short of the target, and from its end every candidate direction of the
    step, the preferred one and each backup, leads to a point that is
    blocked, or already in the plan, or from which [free_room] is below
    1.0. *)
Theorem get_to_fails_when_stuck (self : Self.t) (target : Position) (g : Rng)
    (self' : Self.t) (g' : Rng) :
  get_to self target g = (Raise CannotContinue, self', g') ->
  let c := path_end (Self.head self) (Self.plan self') in
  c <> target
  /\ forall d, d ∈ step_candidates c target ->
       is_block self (move c d) = true
       \/ move c d ∈ Self.plan self'
       \/ exists q, free_room self (move c d) = Ok q /\ (q < 1)%Q.
Proof.
  intros H c.
  pose proof (get_to_eq self target g) as Heq. rewrite H in Heq.
  destruct (get_to_loop_fails _ _ _ _ _ _ _ _ _ Heq (plan_inv_init self))
    as [Hne Hall].
  destruct (get_to_inv _ _ _ _ _ _ H) as (_ & Hself & _).
  assert (Self.head self' = Self.head self) as Hhead by (by rewrite Hself).
  rewrite Hhead in Hne, Hall. fold c in Hne, Hall. split; [done|].
  intros d Hd. apply Hall, (proj2 (accepted_iff self' (move c d))) in Hd.
  rewrite (is_block_ext self' self) in Hd by (by rewrite Hself).
  rewrite (free_room_ext self' self) in Hd by (by rewrite Hself).
  done.
Qed.

Lemma get_to_fails_when_stuck_witness :
  let self' := (get_to (get_position walled_robot) (Position.mk 2 0) []).1.2 in
  let c := path_end (Self.head (get_position walled_robot)) (Self.plan self') in
  c <> Position.mk 2 0
  /\ forall d, d ∈ step_candidates c (Position.mk 2 0) ->
       is_block (get_position walled_robot) (move c d) = true
       \/ move c d ∈ Self.plan self'
       \/ exists q, free_room (get_position walled_robot) (move c d) = Ok q
                    /\ (q < 1)%Q.
Proof.
  apply (get_to_fails_when_stuck (get_position walled_robot) (Position.mk 2 0) []
           (get_to (get_position walled_robot) (Position.mk 2 0) []).1.2 []).
  vm_compute. reflexivity.
Defined.

(** ** When [find_best] and [next_direction] raise, and what they return *)

Lemma distance_0_iff (a b : Position) : distance a b = 0 <-> a = b.
Proof.
  unfold distance. destruct a as [ax ay], b as [bx b_y]. simpl. split.
  - intros H. f_equal; lia.
  - intros [= -> ->]. lia.
Qed.

Lemma find_best_scan_raise_inv self cells acc e :
  find_best_scan self cells acc = Raise e ->
  exists p d, p ∈ cells /\ cell_char self p = CH_DIGIT d
              /\ distance (Self.head self) p = 0.
Proof.
  revert acc. induction cells as [|c cells IH]; intros acc H; [discriminate|].
  simpl in H. destruct (World.cell _ _ _) as [char color] eqn:E.
  assert (forall acc', find_best_scan self cells acc' = Raise e ->
            exists p d, p ∈ c :: cells /\ cell_char self p = CH_DIGIT d
                        /\ distance (Self.head self) p = 0) as IH'.
  { intros acc' H'. destruct (IH _ H') as (p & d & Hp & Hd).
    exists p, d. split; [by right|done]. }
  destruct char; try (by eapply IH').
  unfold compute_score, truediv in H.
  destruct (Z.eqb_spec (distance (Self.head self) c) 0) as [Hz|Hnz].
  - exists c, d. split_and!; [by left| |done]. unfold cell_char. by rewrite E.
  - simpl in H. by eapply IH'.
Qed.

(** Behind a raise of [find_best] is a digit on the head's coordinate. *)
Lemma find_best_raise_inv (self : Self.t) (e : exn) :
  find_best self = Raise e -> exists d, digit_at self (Self.head self) d.
Proof.
  intros H. unfold find_best in H.
  destruct (find_best_scan _ _ _) as [points|e'] eqn:Hscan.
  - simpl in H. pose proof (py_max_tuple Position_gt points) as Hmax.
    destruct (py_max _ points) as [m|e'']; [discriminate|].
    destruct Hmax as [-> _]. discriminate.
  - apply find_best_scan_raise_inv in Hscan as (p & d & Hp & Hd & Hz).
    apply distance_0_iff in Hz as <-. exists d.
    split; [by apply elem_of_grid_positions|done].
Qed.

Lemma find_best_digit_at_head (self : Self.t) (d : Digit) :
  digit_at self (Self.head self) d -> find_best self = Raise ZeroDivisionError.
Proof.
  intros [Hin Hd]. unfold find_best.
  rewrite (find_best_scan_raise _ _ _ (Self.head self) d);
    [done|by apply elem_of_grid_positions|done|by apply distance_0_iff].
Qed.

(** X12.  [find_best] raises exactly when a digit cell of the grid lies on
    the head's coordinate, and then it is [ZeroDivisionError]; it raises
    no other exception. *)
Theorem find_best_raises_iff (self : Self.t) :
  (find_best self = Raise ZeroDivisionError <->
   exists d, digit_at self (Self.head self) d)
  /\ (forall e, find_best self = Raise e -> e = ZeroDivisionError).
Proof.
  split.
  - split.
    + apply find_best_raise_inv.
    + intros [d Hd]. by eapply find_best_digit_at_head.
  - intros e. apply find_best_raises.
Qed.

Lemma backup_none_iff self g :
  (backup self g).1 = Ok None <->
  forall d, d ∈ DIRECTIONS -> is_block self (move (Self.head self) d) = true.
Proof.
  destruct (backup_spec self g) as (res & g' & -> & Hnone & _). simpl.
  rewrite <- Hnone. split; [by intros [= ->]|by intros ->].
Qed.

Lemma backup_some self g d :
  (backup self g).1 = Ok (Some d) ->
  d ∈ DIRECTIONS /\ is_block self (move (Self.head self) d) = false.
Proof.
  destruct (backup_spec self g) as (res & g' & -> & _ & Hsome & _). simpl.
  intros [= ->]. by apply Hsome.
Qed.

(** The first direction of a plan leads to an open neighbour of the
    head. *)
Lemma get_to_first_step self target g r self' g' d rest :
  get_to self target g = (r, self', g') ->
  Self.plan_directions self' = d :: rest ->
  d ∈ DIRECTIONS /\ is_block self (move (Self.head self) d) = false.
Proof.
  intros H Hd.
  destruct (get_to_follow _ _ _ _ _ _ H) as [Hfol _].
  destruct (get_to_inv _ _ _ _ _ _ H) as ((cx & cy & Hinv & _) & Hself & _).
  rewrite Hd in Hfol. destruct (Self.plan self') as [|p ps] eqn:Hp; [done|].
  destruct Hfol as (HdD & -> & _). split; [done|].
  rewrite <- (is_block_ext self' self) by (by rewrite Hself).
  apply (plan_open _ _ _ Hinv). rewrite Hp. by left.
Qed.

(** The value of [next_direction] in each of its branches. *)
Lemma next_direction_value self g :
  let snap := get_position self in
  match find_best snap with
  | Raise e => (next_direction self g).1.1 = Raise e
  | Ok None => (next_direction self g).1.1 = (backup snap g).1
  | Ok (Some best) =>
      let '(r, self', g') := get_to snap best g in
      Self.head self' = Self.head snap
      /\ Self.world self' = Self.world snap
      /\ match r, Self.plan_directions self' with
         | Ok _, d :: _ => (next_direction self g).1.1 = Ok (Some d)
         | _, _ => (next_direction self g).1.1 = (backup self' g').1
         end
  end.
Proof.
  intros snap. unfold next_direction. fold snap.
  destruct (find_best snap) as [[best|]|e]; [| |done].
  - destruct (get_to snap best g) as [[r self'] g'] eqn:Hget.
    destruct (get_to_inv _ _ _ _ _ _ Hget) as (_ & Hself & Hr).
    split; [by rewrite Hself|]. split; [by rewrite Hself|].
    destruct Hr as [-> | ->].
    + destruct (Self.plan_directions self'); [|done].
      by destruct (backup self' g').
    + by destruct (backup self' g').
  - by destruct (backup snap g).
Qed.

(** X13.  A direction that [next_direction] returns is one of the four and
    leads from the head to a neighbouring cell that is not blocked, in the
    snapshot that [get_position] takes. *)
Theorem next_direction_step_open (self : Self.t) (g : Rng) (d : Vector) :
  (next_direction self g).1.1 = Ok (Some d) ->
  d ∈ DIRECTIONS
  /\ is_block (get_position self)
       (move (Self.head (get_position self)) d) = false.
Proof.
  intros H. pose proof (next_direction_value self g) as Hv. cbv zeta in Hv.
  destruct (find_best (get_position self)) as [[best|]|e].
  - destruct (get_to (get_position self) best g) as [[r self'] g'] eqn:Hget.
    destruct Hv as (Hhead & Hw & Hv).
    assert ((next_direction self g).1.1 = (backup self' g').1 ->
            d ∈ DIRECTIONS
            /\ is_block (get_position self)
                 (move (Self.head (get_position self)) d) = false) as Hback.
    { intros Hb. rewrite Hb in H. apply backup_some in H.
      by rewrite Hhead, (is_block_ext self' (get_position self)) in H. }
    destruct r as [[]|e]; [|by apply Hback].
    destruct (Self.plan_directions self') as [|d' rest] eqn:Hd;
      [by apply Hback|].
    rewrite Hv in H. injection H as ->.
    by eapply get_to_first_step.
  - rewrite Hv in H. by apply backup_some in H.
  - rewrite Hv in H. discriminate.
Qed.

Lemma next_direction_step_open_witness :
  UP ∈ DIRECTIONS
  /\ is_block (get_position scenario_robot)
       (move (Self.head (get_position scenario_robot)) UP) = false.
Proof.
  apply (next_direction_step_open scenario_robot []).
  vm_compute. reflexivity.
Defined.

(** X14.  [next_direction] raises exactly when a digit cell lies on the
    head's coordinate in the snapshot, and then [ZeroDivisionError]; in
    every other snapshot it returns, and what it returns is none exactly
    when the four neighbours of the head are all blocked. *)
Theorem next_direction_outcomes (self : Self.t) (g : Rng) :
  let snap := get_position self in
  let enclosed :=
    forall d, d ∈ DIRECTIONS ->
              is_block snap (move (Self.head snap) d) = true in
  ((next_direction self g).1.1 = Raise ZeroDivisionError <->
   exists d, digit_at snap (Self.head snap) d)
  /\ (forall e, (next_direction self g).1.1 = Raise e -> e = ZeroDivisionError)
  /\ (~ (exists d, digit_at snap (Self.head snap) d) ->
      (exists res, (next_direction self g).1.1 = Ok res)
      /\ ((next_direction self g).1.1 = Ok None <-> enclosed)).
Proof.
  intros snap enclosed.
  pose proof (next_direction_value self g) as Hv. cbv zeta in Hv. fold snap in Hv.
  assert (find_best snap = Raise ZeroDivisionError <->
          exists d, digit_at snap (Self.head snap) d) as Hraise.
  { split; [apply find_best_raise_inv|].
    intros [d Hd]. by eapply find_best_digit_at_head. }
  pose proof (find_best_raises snap) as Honly.
  assert (forall s g0, Self.head s = Self.head snap ->
            Self.world s = Self.world snap ->
            (exists res, (backup s g0).1 = Ok res)
            /\ ((backup s g0).1 = Ok None <-> enclosed)) as Hback.
  { intros s g0 Hh Hw. split.
    - destruct (backup_returns s g0) as (res & g1 & ->). simpl. eauto.
    - rewrite backup_none_iff, Hh. unfold enclosed.
      split; intros Hall d Hd; specialize (Hall d Hd);
        by rewrite (is_block_ext s snap) in *. }
  destruct (find_best snap) as [[best|]|e] eqn:Hbest.
  - assert (~ (exists d, digit_at snap (Self.head snap) d)) as Hno.
    { intros Hd. apply Hraise in Hd. discriminate. }
    destruct (get_to snap best g) as [[r self'] g'] eqn:Hget.
    destruct Hv as (Hhead & Hw & Hv).
    destruct (Hback self' g' Hhead Hw) as [[res Hres] Hnone].
    assert ((next_direction self g).1.1 = (backup self' g').1 ->
            ((next_direction self g).1.1 = Raise ZeroDivisionError <->
             exists d, digit_at snap (Self.head snap) d)
            /\ (forall e, (next_direction self g).1.1 = Raise e ->
                          e = ZeroDivisionError)
            /\ (~ (exists d, digit_at snap (Self.head snap) d) ->
                (exists res, (next_direction self g).1.1 = Ok res)
                /\ ((next_direction self g).1.1 = Ok None <-> enclosed)))
      as Hcase.
    { intros ->. rewrite Hres in *. split_and!.
      - split; [discriminate|done].
      - discriminate.
      - intros _. split; [eauto|done]. }
    destruct r as [[]|e]; [|by apply Hcase].
    destruct (Self.plan_directions self') as [|d rest] eqn:Hd;
      [by apply Hcase|].
    rewrite Hv. split_and!.
    + split; [discriminate|done].
    + discriminate.
    + intros _. split; [eauto|]. split; [discriminate|].
      intros Henc. exfalso.
      destruct (get_to_first_step _ _ _ _ _ _ _ _ Hget Hd) as [HdD Hopen].
      specialize (Henc d HdD). congruence.
  - assert (~ (exists d, digit_at snap (Self.head snap) d)) as Hno.
    { intros Hd. apply Hraise in Hd. discriminate. }
    rewrite Hv. destruct (Hback snap g eq_refl eq_refl) as [[res Hres] Hnone].
    rewrite Hres in *. split_and!.
    + split; [discriminate|done].
    + discriminate.
    + intros _. split; [eauto|done].
  - rewrite Hv. pose proof (Honly e eq_refl) as ->. split_and!.
    + split; [intros _; by apply Hraise|done].
    + by intros e [= <-].
    + intros Hno. exfalso. apply Hno. by apply Hraise.
Qed.

(** ** The directions of a planner step *)

(** X15.  Away from the target, the preferred direction of a planner step
    brings the position one step closer to the target in Manhattan
    distance.  The backups are distinct from it and from each other; when
    the position differs from the target on both axes the one backup also
    brings it one step closer, and when they share a row or a column the
    two backups each take it one step farther. *)
Theorem choose_directions_toward (c target : Position) :
  c <> target ->
  let dx := Position.x c - Position.x target in
  let dy := Position.y c - Position.y target in
  let preferred := (choose_directions dx dy).1 in
  let backups := (choose_directions dx dy).2 in
  distance (move c preferred) target = distance c target - 1
  /\ NoDup (preferred :: backups)
  /\ (dx <> 0 -> dy <> 0 ->
      exists b, backups = [b]
                /\ distance (move c b) target = distance c target - 1)
  /\ (dx = 0 \/ dy = 0 ->
      List.length backups = 2%nat
      /\ forall b, b ∈ backups ->
                   distance (move c b) target = distance c target + 1).
Proof.
  intros Hne dx dy preferred backups.
  assert (dx <> 0 \/ dy <> 0) as Hd.
  { destruct c as [cx cy], target as [tx ty]. unfold dx, dy. simpl.
    destruct (decide (cx = tx)) as [->|]; [|lia].
    destruct (decide (cy = ty)) as [->|]; [done|lia]. }
  unfold preferred, backups, choose_directions, distance, move,
    UP, DOWN, LEFT, RIGHT.
  fold dx dy.
  assert (Position.x c = dx + Position.x target) as -> by (unfold dx; lia).
  assert (Position.y c = dy + Position.y target) as -> by (unfold dy; lia).
  clearbody dx dy.
  destruct (Z.eqb_spec dx 0) as [Hdx|Hdx];
    [|destruct (Z.eqb_spec dy 0) as [Hdy|Hdy];
      [|destruct (Z.gtb_spec (Z.abs dx) (Z.abs dy))]];
    destruct (Z.gtb_spec dx 0); destruct (Z.gtb_spec dy 0);
    try (exfalso; lia); cbn [fst snd Vector.xdir Vector.ydir Position.x Position.y];
    (split; [|split; [|split]];
     [lia
     |apply (bool_decide_unpack _); vm_compute; reflexivity
     |intros;
      first [exfalso; lia
            |eexists; split; [reflexivity|];
             cbn [Vector.xdir Vector.ydir Position.x Position.y]; lia]
     |intros;
      first [exfalso; lia
            |split; [reflexivity|];
             intros b Hb;
             repeat (apply elem_of_cons in Hb as [->|Hb];
                     [cbn [Vector.xdir Vector.ydir Position.x Position.y]; lia|]);
             by apply elem_of_nil in Hb]]).
Qed.

Lemma choose_directions_toward_witness :
  distance (move (Position.mk 5 5) (choose_directions 0 3).1) (Position.mk 5 2)
  = distance (Position.mk 5 5) (Position.mk 5 2) - 1.
Proof.
  assert (Position.mk 5 5 <> Position.mk 5 2) as Hne by discriminate.
  apply (choose_directions_toward (Position.mk 5 5) (Position.mk 5 2) Hne).
Defined.

(** ** The order in which [backup] looks *)

Lemma shuffle_loop_rng {A : Type} (i : nat) (l : list A) (g : Rng) :
  (shuffle_loop i l g).2 = drop i g.
Proof.
  revert l g. induction i as [|i IH]; intros l g; simpl; [by rewrite drop_0|].
  unfold randbelow. assert ((draw g).2 = drop 1 g) as Hd by (by destruct g).
  destruct (draw g) as [k g']. simpl in Hd. subst g'.
  by rewrite IH, drop_drop.
Qed.

Lemma backup_loop_first self pre d post acc :
  full_room self d -> (forall e, e ∈ pre -> ~ full_room self e) ->
  backup_loop self (pre ++ d :: post) acc = Ok (inl d).
Proof.
  intros [Hb Hroom]. revert acc.
  induction pre as [|e pre IH]; intros acc Hpre; simpl.
  - by rewrite Hb, Hroom.
  - assert (forall e', e' ∈ pre -> ~ full_room self e') as Hpre'.
    { intros e' He'. apply Hpre. by right. }
    destruct (is_block self (move (Self.head self) e)) eqn:Hbe; simpl;
      [by apply IH|].
    destruct (free_room_open_value _ _ Hbe) as [Hq|(q & Hq & Hlt)].
    + exfalso. apply (Hpre e); [by left|done].
    + rewrite Hq. simpl.
      destruct (Qeq_bool q 1) eqn:Heq; [|by apply IH].
      apply Qeq_bool_iff in Heq. rewrite Heq in Hlt.
      by apply Qlt_irrefl in Hlt.
Qed.

(** X17.  [backup] looks at the neighbours of the head in the order in
    which [random.shuffle] leaves the four directions, and returns the
    first direction in that order whose neighbour is open and has
    [free_room] 1.0, without looking at the later ones; the shuffle is all
    it draws from the random source, three numbers. *)
Theorem backup_first_full (self : Self.t) (g : Rng)
    (pre post : list Vector) (d : Vector) :
  (random_shuffle DIRECTIONS g).1 = pre ++ d :: post ->
  full_room self d ->
  (forall e, e ∈ pre -> ~ full_room self e) ->
  backup self g = (Ok (Some d), drop 3 g).
Proof.
  intros Hsh Hd Hpre. unfold backup.
  pose proof (shuffle_loop_rng 3 DIRECTIONS g) as Hrng.
  change (shuffle_loop 3 DIRECTIONS g) with (random_shuffle DIRECTIONS g) in Hrng.
  destruct (random_shuffle DIRECTIONS g) as [directions g']. simpl in *.
  subst. by rewrite (backup_loop_first self pre d post [] Hd Hpre).
Qed.

Lemma backup_first_full_witness :
  backup scenario_snapshot [] = (Ok (Some DOWN), []).
Proof.
  apply (backup_first_full scenario_snapshot [] [] [LEFT; RIGHT; UP] DOWN).
  - vm_compute. reflexivity.
  - split; vm_compute; reflexivity.
  - intros e He. by apply elem_of_nil in He.
Defined.

(** ** The preferred direction is taken when it can be *)

(** X18.  Away from the target, when the point in the preferred direction
    is not blocked, not in the plan and has [free_room] 1.0, the step of
    the planner appends that point and that direction, and draws nothing
    from the random source. *)
Theorem get_to_takes_preferred (fuel : nat) (self : Self.t)
    (target : Position) (cx cy : Z) (g : Rng) :
  let c := Position.mk cx cy in
  let preferred :=
    (choose_directions (cx - Position.x target) (cy - Position.y target)).1 in
  let next_point := move c preferred in
  c <> target ->
  is_block self next_point = false ->
  next_point ∉ Self.plan self ->
  free_room self next_point = Ok 1%Q ->
  get_to_loop (S fuel) self target cx cy g
  = get_to_loop fuel
      (Self.set_plan self (Self.plan self ++ [next_point])
         (Self.plan_directions self ++ [preferred]))
      target (Position.x next_point) (Position.y next_point) g.
Proof.
  intros c preferred next_point Hne Hb Hnin Hroom.
  rewrite get_to_loop_unfold.
  destruct ((cx =? Position.x target) && (cy =? Position.y target)) eqn:Hat.
  { exfalso. apply Hne. apply andb_prop in Hat as [Hx Hy].
    apply Z.eqb_eq in Hx, Hy. destruct target. unfold c. simpl in *. congruence. }
  unfold preferred in *.
  destruct (choose_directions _ _) as [p bs]. simpl in *.
  assert (accepted self next_point = Ok true) as Hacc.
  { apply (proj1 (accepted_iff self next_point)). done. }
  unfold next_point, c, move in Hacc. simpl in Hacc. by rewrite Hacc.
Qed.

Lemma get_to_takes_preferred_witness :
  get_to_loop 3 scenario_snapshot (Position.mk 5 2) 5 5 []
  = get_to_loop 2
      (Self.set_plan scenario_snapshot [Position.mk 5 4] [UP])
      (Position.mk 5 2) 5 4 [].
Proof.
  apply (get_to_takes_preferred 2 scenario_snapshot (Position.mk 5 2) 5 5 []).
  - discriminate.
  - vm_compute. reflexivity.
  - vm_compute. set_solver.
  - vm_compute. reflexivity.
Defined.

(** ** What a decision depends on *)

Lemma find_best_scan_ext s1 s2 cells acc :
  same_view s1 s2 ->
  find_best_scan s1 cells acc = find_best_scan s2 cells acc.
Proof.
  intros (Hw & _ & Hh). revert acc.
  induction cells as [|c cells IH]; intros acc; [done|].
  simpl. rewrite Hw, Hh. destruct (World.cell _ _ _) as [char color].
  destruct char; try apply IH.
  destruct (compute_score _ _); simpl; [apply IH|done].
Qed.

Lemma find_best_ext s1 s2 : same_view s1 s2 -> find_best s1 = find_best s2.
Proof.
  intros Hv. unfold find_best.
  rewrite (find_best_scan_ext s1 s2 _ _ Hv). by destruct Hv as (-> & _).
Qed.

Lemma backup_loop_ext s1 s2 dirs acc :
  same_view s1 s2 -> backup_loop s1 dirs acc = backup_loop s2 dirs acc.
Proof.
  intros (Hw & Hl & Hh). revert acc.
  induction dirs as [|d dirs IH]; intros acc; [done|].
  simpl. rewrite Hh, (is_block_ext s1 s2 _ Hw), (free_room_ext s1 s2 _ Hw Hl).
  destruct (is_block s2 _); simpl; [apply IH|].
  destruct (free_room s2 _) as [q|e]; simpl; [|done].
  destruct (Qeq_bool q 1); [done|apply IH].
Qed.

Lemma backup_ext s1 s2 g : same_view s1 s2 -> backup s1 g = backup s2 g.
Proof.
  intros Hv. unfold backup. destruct (random_shuffle DIRECTIONS g).
  by rewrite (backup_loop_ext s1 s2 _ _ Hv).
Qed.

Lemma accepted_ext s1 s2 p :
  same_view s1 s2 -> Self.plan s1 = Self.plan s2 ->
  accepted s1 p = accepted s2 p.
Proof.
  intros (Hw & Hl & _) Hp. unfold accepted.
  by rewrite Hp, (is_block_ext s1 s2 _ Hw), (free_room_ext s1 s2 _ Hw Hl).
Qed.

Lemma for_direction_ext fuel s1 s2 cx cy gen g :
  same_view s1 s2 -> Self.plan s1 = Self.plan s2 ->
  for_direction fuel s1 cx cy gen g = for_direction fuel s2 cx cy gen g.
Proof.
  intros Hv Hp. revert gen g. induction fuel as [|fuel IH]; intros gen g;
    [done|].
  simpl. destruct (iter_directions_next gen g) as [[[d gen']|] g']; [|done].
  rewrite (accepted_ext s1 s2 _ Hv Hp).
  destruct (accepted s2 _) as [[|]|e]; [done|apply IH|done].
Qed.

(** The loop of [get_to] on two robots that see the same thing and hold
    the same plan: the same outcome, random source and plan. *)
Lemma get_to_loop_ext fuel s1 s2 target cx cy g :
  same_view s1 s2 -> Self.plan s1 = Self.plan s2 ->
  Self.plan_directions s1 = Self.plan_directions s2 ->
  match get_to_loop fuel s1 target cx cy g,
        get_to_loop fuel s2 target cx cy g with
  | Some (r1, s1', g1), Some (r2, s2', g2) =>
      r1 = r2 /\ g1 = g2 /\ same_view s1' s2'
      /\ Self.plan s1' = Self.plan s2'
      /\ Self.plan_directions s1' = Self.plan_directions s2'
  | None, None => True
  | _, _ => False
  end.
Proof.
  revert s1 s2 cx cy g.
  induction fuel as [|fuel IH]; intros s1 s2 cx cy g Hv Hp Hd.
  - simpl. destruct (_ && _); done.
  - rewrite !get_to_loop_unfold. destruct (_ && _); [done|].
    destruct (choose_directions _ _) as [preferred backups].
    rewrite (for_direction_ext _ s1 s2 _ _ _ _ Hv Hp).
    destruct (for_direction _ s2 _ _ _ _) as [[[[[np d]|]|e] g1]|]; try done.
    apply IH; simpl; [done|by rewrite Hp|by rewrite Hd].
Qed.

(** X19.  The decision carries no state from one call to the next but the
    head: two robots with the same world and colour return the same
    direction, or raise alike, and leave the random source alike,
    whatever their plans, bodies, lengths and tails were, provided their
    heads were the same or the grid holds a head cell of their colour. *)
Theorem next_direction_carries_only_head (s1 s2 : Self.t) (g : Rng) :
  Self.world s1 = Self.world s2 ->
  Self.color s1 = Self.color s2 ->
  Self.head s1 = Self.head s2 \/ own_cells_with s1 CH_HEAD <> [] ->
  (next_direction s1 g).1.1 = (next_direction s2 g).1.1
  /\ (next_direction s1 g).2 = (next_direction s2 g).2.
Proof.
  intros Hw Hc Hh.
  assert (same_view (get_position s1) (get_position s2)) as Hv.
  { rewrite !get_position_eq. unfold same_view. simpl.
    assert (own_cells s1 = own_cells s2) as Hown.
    { unfold own_cells, cell_color. by rewrite Hw, Hc. }
    assert (own_cells_with s1 CH_HEAD = own_cells_with s2 CH_HEAD) as Hheads.
    { unfold own_cells_with, cell_char. by rewrite Hown, Hw. }
    split_and!; [done|by rewrite Hown|].
    rewrite <- Hheads. destruct Hh as [->|Hne]; [done|].
    destruct (last (own_cells_with s1 CH_HEAD)) eqn:E; [done|].
    by apply last_None in E. }
  unfold next_direction. rewrite (find_best_ext _ _ Hv).
  destruct (find_best (get_position s2)) as [[best|]|e]; [| |done].
  - pose proof (get_to_eq (get_position s1) best g) as H1.
    pose proof (get_to_eq (get_position s2) best g) as H2.
    assert (same_view (Self.set_plan (get_position s1) [] [])
                      (Self.set_plan (get_position s2) [] [])) as Hv0 by done.
    pose proof (get_to_loop_ext (get_to_fuel (Self.world (get_position s1)))
                  _ _ best
                  (Position.x (Self.head (get_position s1)))
                  (Position.y (Self.head (get_position s1))) g
                  Hv0 eq_refl eq_refl) as Hext.
    rewrite H1 in Hext. destruct Hv as (Hw' & Hl' & Hh').
    rewrite Hw', Hh' in Hext. rewrite H2 in Hext.
    destruct (get_to (get_position s1) best g) as [[r1 s1'] g1].
    destruct (get_to (get_position s2) best g) as [[r2 s2'] g2].
    destruct Hext as (-> & -> & Hv' & Hp & Hd).
    rewrite (backup_ext s1' s2' g2 Hv'), Hd.
    destruct r2 as [[]|[]]; try done.
    + destruct (Self.plan_directions s2'); [|done].
      by destruct (backup s2' g2).
    + by destruct (backup s2' g2).
  - rewrite (backup_ext _ _ g Hv). by destruct (backup (get_position s2) g).
Qed.

Lemma next_direction_carries_only_head_witness :
  (next_direction
     (Self.mk scenario_world 1 7 (Position.mk 9 9) (Position.mk 3 3)
        [Position.mk 1 1] [Position.mk 0 0] [DOWN]) []).1.1
  = (next_direction scenario_robot []).1.1
  /\ (next_direction
        (Self.mk scenario_world 1 7 (Position.mk 9 9) (Position.mk 3 3)
           [Position.mk 1 1] [Position.mk 0 0] [DOWN]) []).2
     = (next_direction scenario_robot []).2.
Proof.
  apply next_direction_carries_only_head; [reflexivity|reflexivity|].
  right. vm_compute. discriminate.
Defined.

(** ** C8: a target on the head *)




